(** * forge-server-utils: authentication cache, transport helpers,
      chunked download, URN encoding and manifest search

    A shallow embedding of [dist/authentication.js], [dist/common.js] and
    [dist/model-derivative.js], followed by the properties established
    for them.  Promises are modelled by their settlement state, the
    network by explicit response events, and [Date.now()] by a
    millisecond reading passed to every step that consults the clock. *)

From Stdlib Require Import ZArith Lia Ascii String List Strings.Byte.
From Stdlib Require Import DecimalString DecimalPos DecimalZ.
From stdpp Require Import gmap strings list.

Local Open Scope Z_scope.

(** [lia] is asked to see through division and remainder by constants. *)
Ltac Zify.zify_post_hook ::= Z.to_euclidean_division_equations.

(* ===================================================================== *)
(** ** [AuthenticationClient] (authentication.js)                        *)
(* ===================================================================== *)

Module Authentication.

Definition RootPath : string := "authentication/v1".

(** [Number.MAX_VALUE], the largest finite double, (2 - 2^-52) * 2^1023,
    as the integer it is.  Clock readings and expiry times are integers
    far below 2^53, where double arithmetic is exact; only a difference
    taken from [MAX_VALUE] itself would round, and no statement below
    depends on its digits. *)
Definition MAX_VALUE : Z := 2 ^ 1024 - 2 ^ 971.

(** [Date.now()] returns a time value: an integral number of
    milliseconds of magnitude at most 8.64e15. *)
Definition clock_reading (t : Z) : Prop :=
  -8640000000000000 <= t <= 8640000000000000.

(** The [data] of a successful token response. *)
Record TokenData : Type :=
  { data_access_token : string; data_expires_in : Z }.

(** What comes back for a request: a 2xx response with its [data], or a
    rejection (network failure, or a status outside 2xx, which axios
    turns into a rejection). *)
Inductive Response : Type :=
| Ok (data : TokenData)
| Failure (err : string).

(** State of the promise [this.post('authenticate', params).then(...)].
    While it is pending its continuation holds the [key] it closed over. *)
Inductive Promise : Type :=
| Pending (key : string)
| Fulfilled (token : string)
| Rejected (err : string).

(** The object stored in [_cached]: [{ expires_at, promise }]. *)
Record CacheObject : Type :=
  { expires_at : Z; promise : Promise }.

Definition set_expires_at (v : Z) (o : CacheObject) : CacheObject :=
  {| expires_at := v; promise := promise o |}.
Definition set_promise (p : Promise) (o : CacheObject) : CacheObject :=
  {| expires_at := expires_at o; promise := p |}.

(** The urlencoded form sent to the token endpoint. *)
Record Params : Type :=
  { p_client_id : string; p_client_secret : string;
    p_grant_type : string; p_scope : string }.

(** A client.  [_cached] maps a property name to a reference into
    [objects], the cache objects created so far (a reference is an index;
    objects are never freed, closures keep them alive).  [posts] lists the
    token requests sent, oldest first, each with its URL. *)
Record AuthenticationClient : Type :=
  { client_id : string;
    client_secret : string;
    host : string;
    _cached : gmap string nat;
    objects : list CacheObject;
    posts : list (string * Params) }.

(** [new AuthenticationClient(client_id, client_secret, host)]; the
    default applies when [host] is [undefined]. *)
Definition new (client_id client_secret : string) (host : option string)
  : AuthenticationClient :=
  {| client_id := client_id;
     client_secret := client_secret;
     host := default "https://developer.api.autodesk.com" host;
     _cached := ∅;
     objects := [];
     posts := [] |}.

Definition clientId (this : AuthenticationClient) : string := client_id this.

(** ['two-legged/' + scopes.join('/')] *)
Definition cache_key (scopes : list string) : string :=
  "two-legged/" +:+ String.concat "/" scopes.

Definition authenticate_params (this : AuthenticationClient)
  (scopes : list string) : Params :=
  {| p_client_id := client_id this;
     p_client_secret := client_secret this;
     p_grant_type := "client_credentials";
     p_scope := String.concat " " scopes |}.

(** The promise [authenticate] returns,
    [cache.promise.then(token => ({ access_token: token, expires_in:
    Math.floor((cache.expires_at - Date.now()) / 1000) }))],
    named by the cache object its callback closed over. *)
Inductive TokenPromise : Type := ThenOf (cache : nat).

Definition cache_of (p : TokenPromise) : nat :=
  match p with ThenOf c => c end.

(** The cached object [authenticate] returns from, if any: the entry
    under [key] when [force] is off and it has not expired at [now]. *)
Definition cached_hit (this : AuthenticationClient) (key : string)
  (force : bool) (now : Z) : option nat :=
  if negb force then
    match _cached this !! key with
    | Some ref =>
      match objects this !! ref with
      | Some cache => if expires_at cache >? now then Some ref else None
      | None => None
      end
    | None => None
    end
  else None.

(** [authenticate(scopes, force)] run at clock reading [now]: the client
    afterwards and the promise returned. *)
Definition authenticate (this : AuthenticationClient) (scopes : list string)
  (force : bool) (now : Z) : AuthenticationClient * TokenPromise :=
  let key := cache_key scopes in
  match cached_hit this key force now with
  | Some ref => (this, ThenOf ref)
  | None =>
    let params := authenticate_params this scopes in
    let url := host this +:+ "/" +:+ RootPath +:+ "/" +:+ "authenticate" in
    let ref := length (objects this) in
    ({| client_id := client_id this;
        client_secret := client_secret this;
        host := host this;
        _cached := <[key := ref]> (_cached this);
        objects := objects this
                   ++ [{| expires_at := MAX_VALUE; promise := Pending key |}];
        posts := posts this ++ [(url, params)] |},
     ThenOf ref)
  end.

Definition with_objects (this : AuthenticationClient)
  (objs : list CacheObject) : AuthenticationClient :=
  {| client_id := client_id this;
     client_secret := client_secret this;
     host := host this;
     _cached := _cached this;
     objects := objs;
     posts := posts this |}.

(** The answer to the request behind cache object [ref] arrives at clock
    reading [now].  On success the continuation runs
    [this._cached[key].expires_at = Date.now() + data.expires_in * 1000]
    on whatever object is under [key] by then, and fulfils the promise
    with [data.access_token]; on failure the promise is rejected and
    nothing else happens.  A request is answered once. *)
Definition respond (this : AuthenticationClient) (ref : nat)
  (resp : Response) (now : Z) : AuthenticationClient :=
  match objects this !! ref with
  | Some cache =>
    match promise cache with
    | Pending key =>
      match resp with
      | Ok data =>
        match _cached this !! key with
        | Some target =>
          with_objects this
            (alter (set_promise (Fulfilled (data_access_token data))) ref
               (alter (set_expires_at (now + data_expires_in data * 1000))
                  target (objects this)))
        | None =>
          with_objects this
            (alter (set_promise (Rejected "TypeError")) ref (objects this))
        end
      | Failure err =>
        with_objects this
          (alter (set_promise (Rejected err)) ref (objects this))
      end
    | _ => this
    end
  | None => this
  end.

Record ITwoLeggedToken : Type :=
  { access_token : string; expires_in : Z }.

Inductive Settled (A : Type) : Type :=
| StillPending
| Resolves (a : A)
| Rejects (err : string).
Arguments StillPending {A}.
Arguments Resolves {A} a.
Arguments Rejects {A} err.

(** What an awaiter of the returned promise observes when its callback
    runs at clock reading [now]: [Math.floor] of a quotient by 1000 is
    [Z.div]. *)
Definition settle (this : AuthenticationClient) (p : TokenPromise) (now : Z)
  : Settled ITwoLeggedToken :=
  match objects this !! cache_of p with
  | Some cache =>
    match promise cache with
    | Pending _ => StillPending
    | Fulfilled token =>
      Resolves {| access_token := token;
                  expires_in := (expires_at cache - now) / 1000 |}
    | Rejected err => Rejects err
    end
  | None => StillPending
  end.

(** What happens to a client over time. *)
Inductive Event : Type :=
| Call (scopes : list string) (force : bool) (now : Z)
| Reply (ref : nat) (resp : Response) (now : Z).

Definition step (this : AuthenticationClient) (ev : Event)
  : AuthenticationClient :=
  match ev with
  | Call scopes force now => fst (authenticate this scopes force now)
  | Reply ref resp now => respond this ref resp now
  end.

Definition run (this : AuthenticationClient) (evs : list Event)
  : AuthenticationClient :=
  fold_left step evs this.

(** *** Vocabulary for the statements *)

(** A request for [key] is in flight: some promise closed over [key] is
    still pending. *)
Definition in_flight (key : string) (this : AuthenticationClient) : Prop :=
  exists ref cache,
    objects this !! ref = Some cache /\ promise cache = Pending key.

(** Every reference in [_cached] points into [objects]. *)
Definition refs_bounded (this : AuthenticationClient) : Prop :=
  map_Forall (fun _ ref => (ref < length (objects this))%nat) (_cached this).

(** The cache object [ref] is the entry under [key] and under no other
    name, still carries the sentinel expiry, its promise is in state
    [pr], and no other promise closed over [key] is pending. *)
Definition owns (key : string) (ref : nat) (pr : Promise)
  (this : AuthenticationClient) : Prop :=
  _cached this !! key = Some ref
  /\ objects this !! ref = Some {| expires_at := MAX_VALUE; promise := pr |}
  /\ (forall k, _cached this !! k = Some ref -> k = key)
  /\ (forall r c,
        objects this !! r = Some c -> promise c = Pending key -> r = ref).

(** An event that is not the answer to the request of [ref]. *)
Definition unanswered (ref : nat) (ev : Event) : Prop :=
  match ev with
  | Call _ _ _ => True
  | Reply r _ _ => r <> ref
  end.

(** An event that is not a forced call for [key], and whose clock
    reading, for a call, is a time value. *)
Definition unforced_for (key : string) (ev : Event) : Prop :=
  match ev with
  | Call scopes force now =>
    clock_reading now /\ (force = true -> cache_key scopes <> key)
  | Reply _ _ _ => True
  end.

End Authentication.

(* ===================================================================== *)
(** ** [ForgeClient] (common.js)                                         *)
(* ===================================================================== *)

Module Forge.

(** Delay (in milliseconds) before retrying after a "202 Accepted"
    response. *)
Definition RetryDelay : Z := 5000.
Definition MaxContentLength : Z := 2 ^ 53 - 1.
Definition MaxBodyLength : Z := 2 ^ 53 - 1.
Definition DefaultHost : string := "https://developer.api.autodesk.com".

Inductive Region : Type := US | EMEA.

(** An authentication object, by the properties it has: [Some] when
    ['name' in auth] holds. *)
Record IAuthOptions : Type :=
  { opt_client_id : option string;
    opt_client_secret : option string;
    opt_token : option string }.

Record AxiosConfig : Type :=
  { baseURL : string;
    maxContentLength : option Z;
    maxBodyLength : option Z }.

(** The fields of a client; [auth] and [token] are [None] while
    [undefined]. *)
Record ForgeClient : Type :=
  { auth : option Authentication.AuthenticationClient;
    token : option string;
    root : string;
    host : string;
    region : Region;
    axios : AxiosConfig }.

Inductive Thrown : Type := Error (message : string).

(** [host || DefaultHost]: the empty string is falsy. *)
Definition host_or_default (host : option string) : string :=
  match host with
  | Some h => if String.eqb h "" then DefaultHost else h
  | None => DefaultHost
  end.

(** [region || Region.US] *)
Definition region_or_default (region : option Region) : Region :=
  default US region.

(** The assignment to [this.auth] or [this.token] that the constructor
    and [reset] share; [inl] is the [throw], the fields left as they
    were. *)
Definition assign_credentials
  (auth0 : option Authentication.AuthenticationClient) (token0 : option string)
  (auth : IAuthOptions) (host : option string)
  : Thrown + (option Authentication.AuthenticationClient * option string) :=
  match opt_client_id auth, opt_client_secret auth with
  | Some client_id, Some client_secret =>
    inr (Some (Authentication.new client_id client_secret host), token0)
  | _, _ =>
    match opt_token auth with
    | Some t => inr (auth0, Some t)
    | None => inl (Error "Authentication parameters missing or incorrect.")
    end
  end.

(** [new ForgeClient(root, auth, host, region)] *)
Definition new (root : string) (auth : IAuthOptions) (host : option string)
  (region : option Region) : Thrown + ForgeClient :=
  match assign_credentials None None auth host with
  | inl e => inl e
  | inr (a, t) =>
    inr {| auth := a;
           token := t;
           root := root;
           host := host_or_default host;
           region := region_or_default region;
           axios := {| baseURL := host_or_default host +:+ "/" +:+ root +:+ "/";
                       maxContentLength := Some MaxContentLength;
                       maxBodyLength := Some MaxBodyLength |} |}
  end.

(** [reset(auth, host, region)]; an argument that is [undefined] is
    [None].  [inl] is the [throw], which leaves the client as it was. *)
Definition reset (this : ForgeClient) (auth : option IAuthOptions)
  (host : option string) (region : option Region) : Thrown + ForgeClient :=
  let credentials :=
    match auth with
    | Some a => assign_credentials (Forge.auth this) (token this) a host
    | None => inr (Forge.auth this, token this)
    end in
  match credentials with
  | inl e => inl e
  | inr (a, t) =>
    let host1 :=
      match host with
      | Some _ => host_or_default host
      | None => Forge.host this
      end in
    let region1 :=
      match region with
      | Some _ => region_or_default region
      | None => Forge.region this
      end in
    inr {| auth := a;
           token := t;
           root := root this;
           host := host1;
           region := region1;
           axios := {| baseURL := host1 +:+ "/" +:+ root this +:+ "/";
                       maxContentLength := None;
                       maxBodyLength := None |} |}
  end.

(** How [options.headers['Authorization']] comes to be set: at once from
    the static token, or by the callback of the authenticator's promise. *)
Inductive Authorization : Type :=
| Immediately (header : string)
| AfterToken (p : Authentication.TokenPromise).

Definition with_auth (this : ForgeClient)
  (a : Authentication.AuthenticationClient) : ForgeClient :=
  {| auth := Some a;
     token := token this;
     root := root this;
     host := host this;
     region := region this;
     axios := axios this |}.

(** [setAuthorization(options, scopes)] started at clock reading [now].
    Adding [undefined] to a string gives ["undefined"]. *)
Definition setAuthorization (this : ForgeClient) (scopes : list string)
  (now : Z) : ForgeClient * Authorization :=
  match auth this with
  | Some a =>
    let '(a', p) := Authentication.authenticate a scopes false now in
    (with_auth this a', AfterToken p)
  | None => (this, Immediately ("Bearer " +:+ default "undefined" (token this)))
  end.

(** ['Bearer ' + authentication.access_token] *)
Definition bearer (authentication : Authentication.ITwoLeggedToken) : string :=
  "Bearer " +:+ Authentication.access_token authentication.

(** The answer to a token request of the client's authenticator
    arrives. *)
Definition token_response (this : ForgeClient) (ref : nat)
  (resp : Authentication.Response) (now : Z) : ForgeClient :=
  match auth this with
  | Some a => with_auth this (Authentication.respond a ref resp now)
  | None => this
  end.

(** What [options.headers['Authorization']] holds once
    [await this.setAuthorization(options, scopes)] is over, the
    authenticator's callback having run at clock reading [now]. *)
Definition authorization_header (this : ForgeClient) (a : Authorization)
  (now : Z) : Authentication.Settled string :=
  match a with
  | Immediately header => Authentication.Resolves header
  | AfterToken p =>
    match auth this with
    | Some client =>
      match Authentication.settle client p now with
      | Authentication.Resolves authentication =>
        Authentication.Resolves (bearer authentication)
      | Authentication.Rejects err => Authentication.Rejects err
      | Authentication.StillPending => Authentication.StillPending
      end
    | None => Authentication.StillPending
    end
  end.

(** *** The polling [get] *)

Record AxiosResponse : Type := { status : Z; data : string }.

(** What the server answers to the next request, and how long after the
    request the answer arrives. *)
Record Exchange : Type := { latency : Z; response : AxiosResponse }.

(** The requests sent with the clock reading at which each left, the
    deadlines of the timers started by [setTimeout], and the clock. *)
Record World : Type :=
  { clock : Z;
    sent : list (Z * string * string);
    timers : list Z }.

(** [sleep(ms)]: starts a timer and returns a promise for it.  The
    caller below drops that promise, so only the timer is recorded. *)
Definition sleep (ms : Z) (w : World) : World :=
  {| clock := clock w; sent := sent w; timers := timers w ++ [clock w + ms] |}.

(** [await this.axios.get(endpoint, config)] answered by [ex]: the
    request leaves now, control returns when the answer is in. *)
Definition exchange (endpoint authorization : string) (ex : Exchange)
  (w : World) : World :=
  {| clock := clock w + latency ex;
     sent := sent w ++ [(clock w, endpoint, authorization)];
     timers := timers w |}.

(** The request leaves and no answer ever comes. *)
Definition unanswered_request (endpoint authorization : string) (w : World)
  : World :=
  {| clock := clock w;
     sent := sent w ++ [(clock w, endpoint, authorization)];
     timers := timers w |}.

(** axios rejects a response whose status is outside 200..299. *)
Definition validateStatus (st : Z) : bool := (200 <=? st) && (st <? 300).

Inductive Outcome : Type :=
| Returned (body : string)
| Threw (status : Z)
| NeverSettles.

(** The [while] loop of [get], entered with the response [resp] in
    hand; [server] holds the answers to the requests still to come. *)
Fixpoint poll (endpoint authorization : string) (repeatOn202 : bool)
  (server : list Exchange) (resp : AxiosResponse) (w : World)
  : World * Outcome :=
  if (status resp =? 202) && repeatOn202 then
    let w1 := sleep RetryDelay w in
    match server with
    | [] => (unanswered_request endpoint authorization w1, NeverSettles)
    | ex :: server' =>
      let w2 := exchange endpoint authorization ex w1 in
      if validateStatus (status (response ex))
      then poll endpoint authorization repeatOn202 server' (response ex) w2
      else (w2, Threw (status (response ex)))
    end
  else (w, Returned (data resp)).

(** [get(endpoint, headers, scopes, repeatOn202)] once
    [await this.setAuthorization(config, scopes)] has put
    [authorization] into the headers. *)
Definition get (endpoint authorization : string) (repeatOn202 : bool)
  (server : list Exchange) (w : World) : World * Outcome :=
  match server with
  | [] => (unanswered_request endpoint authorization w, NeverSettles)
  | ex :: server' =>
    let w1 := exchange endpoint authorization ex w in
    if validateStatus (status (response ex))
    then poll endpoint authorization repeatOn202 server' (response ex) w1
    else (w1, Threw (status (response ex)))
  end.

(** *** Vocabulary for the statements *)

(** The authentication object supplies one of the two credential modes. *)
Definition supplies_mode (auth : IAuthOptions) : bool :=
  (bool_decide (is_Some (opt_client_id auth))
   && bool_decide (is_Some (opt_client_secret auth)))
  || bool_decide (is_Some (opt_token auth)).

End Forge.

(* ===================================================================== *)
(** ** [getDerivativeChunked] (model-derivative.js)                      *)
(* ===================================================================== *)

Module Chunked.

(** A JavaScript integer interpolated into a template string. *)
Definition decimal (z : Z) : string := NilZero.string_of_int (Z.to_int z).

(** [`bytes=${streamedBytes}-${streamedBytes + chunkSize - 1}`] *)
Definition range_header (streamedBytes chunkSize : Z) : string :=
  "bytes=" +:+ decimal streamedBytes +:+ "-"
  +:+ decimal (streamedBytes + chunkSize - 1).

(** [1 << 24], the default of [maxChunkSize]. *)
Definition default_maxChunkSize : Z := Z.shiftl 1 24.

(** *** The server behind the URL

    It serves one resource and honours single byte ranges: the
    [Range] header names the first and the last octet wanted. *)

Fixpoint strip_prefix (p s : string) : option string :=
  match p with
  | EmptyString => Some s
  | String c p' =>
    match s with
    | EmptyString => None
    | String d s' => if Ascii.eqb c d then strip_prefix p' s' else None
    end
  end.

(** The text before the first [-] and the text after it. *)
Fixpoint split_dash (s : string) : option (string * string) :=
  match s with
  | EmptyString => None
  | String c s' =>
    if Ascii.eqb c "-"%char then Some (EmptyString, s')
    else
      match split_dash s' with
      | Some (a, b) => Some (String c a, b)
      | None => None
      end
  end.

Definition parse_range (h : string) : option (Z * Z) :=
  spec ← strip_prefix "bytes=" h;
  ab ← split_dash spec;
  first ← NilZero.uint_of_string (fst ab);
  last ← NilZero.uint_of_string (snd ab);
  Some (Z.of_uint first, Z.of_uint last).

(** The answer to [HEAD]: the [content-length], read by [parseInt]. *)
Definition head_content_length (content : list byte) : Z :=
  Z.of_nat (length content).

(** The answer to [GET] with a [Range] header: the octets from the first
    to the last position named, as far as the resource goes; the whole
    resource when the header is not a byte range; a failure (status 416,
    which axios rejects) when the range starts past the end. *)
Definition serve_range (content : list byte) (h : string)
  : option (list byte) :=
  match parse_range h with
  | Some (first, last) =>
    if first <=? last then
      if first <? Z.of_nat (length content)
      then Some (take (Z.to_nat (last - first + 1))
                   (drop (Z.to_nat first) content))
      else None
    else Some content
  | None => Some content
  end.

(** *** The generator *)

(** What the generator yields: the buffer, kept with the [Range] header
    it was requested by. *)
Record Chunk : Type := { range : string; buff : list byte }.

(** How the generator ends: its loop is left with [streamedBytes] at the
    value given, a request fails, or the rounds allowed run out with the
    loop still going. *)
Inductive ReadEnd : Type :=
| Finished (streamedBytes : Z)
| Failed
| Unfinished.

(** The [while] loop of [read()], for at most [rounds] iterations.
    [getBuffer] is [client.getBuffer(url, { Range: ... }, ReadTokenScopes)]
    with the URL and the authorization, resolved afresh in every round,
    left out: they do not depend on the position. *)
Fixpoint read_loop (rounds : nat) (getBuffer : string -> option (list byte))
  (maxChunkSize contentLength streamedBytes : Z) : list Chunk * ReadEnd :=
  if streamedBytes <? contentLength then
    match rounds with
    | O => ([], Unfinished)
    | S rounds' =>
      let chunkSize := Z.min maxChunkSize (contentLength - streamedBytes) in
      let header := range_header streamedBytes chunkSize in
      match getBuffer header with
      | Some buff =>
        let '(rest, fin) :=
          read_loop rounds' getBuffer maxChunkSize contentLength
            (streamedBytes + chunkSize) in
        ({| range := header; buff := buff |} :: rest, fin)
      | None => ([], Failed)
      end
    end
  else ([], Finished streamedBytes).

(** [getDerivativeChunked(modelUrn, derivativeUrn, maxChunkSize)] read to
    its end against the server of [content]. *)
Definition getDerivativeChunked (rounds : nat) (content : list byte)
  (maxChunkSize : Z) : list Chunk * ReadEnd :=
  let contentLength := head_content_length content in
  read_loop rounds (serve_range content) maxChunkSize contentLength 0.

(** *** Vocabulary for the statements *)

(** [ceil(L / C)] for positive [C]. *)
Definition ceil_div (L C : Z) : Z := (L + C - 1) / C.

End Chunked.

(* ===================================================================== *)
(** ** Base64 as used by [Buffer.prototype.toString('base64')]           *)
(* ===================================================================== *)

Module Base64.

(** The standard 64 character alphabet of RFC 4648, section 4. *)
Definition alphabet : list ascii :=
  list_ascii_of_string
    "ABCDEFGHIJKLMNOPQRSTUVWXYZabcdefghijklmnopqrstuvwxyz0123456789+/".

Definition pad : ascii := "="%char.

Definition char_of (i : N) : ascii := nth (N.to_nat i) alphabet pad.

Fixpoint index_from (c : ascii) (l : list ascii) (i : N) : option N :=
  match l with
  | [] => None
  | d :: l' => if Ascii.eqb c d then Some i else index_from c l' (i + 1)%N
  end.

Definition index_of (c : ascii) : option N := index_from c alphabet 0%N.

(** Three octets are regrouped into four 6-bit values; a final group of
    one or two octets is zero-extended and padded with [=]. *)
Fixpoint encode (bs : list byte) : string :=
  match bs with
  | [] => EmptyString
  | a :: bs1 =>
    let x := Byte.to_N a in
    match bs1 with
    | [] =>
      String (char_of (x / 4))
        (String (char_of ((x mod 4) * 16))
           (String pad (String pad EmptyString)))
    | b :: bs2 =>
      let y := Byte.to_N b in
      match bs2 with
      | [] =>
        String (char_of (x / 4))
          (String (char_of ((x mod 4) * 16 + y / 16))
             (String (char_of ((y mod 16) * 4))
                (String pad EmptyString)))
      | c :: rest =>
        let z := Byte.to_N c in
        String (char_of (x / 4))
          (String (char_of ((x mod 4) * 16 + y / 16))
             (String (char_of ((y mod 16) * 4 + z / 64))
                (String (char_of (z mod 64)) (encode rest))))
      end
    end
  end%N.

Definition octet1 (i1 i2 : N) : option byte := Byte.of_N (i1 * 4 + i2 / 16)%N.
Definition octet2 (i2 i3 : N) : option byte :=
  Byte.of_N ((i2 mod 16) * 16 + i3 / 4)%N.
Definition octet3 (i3 i4 : N) : option byte :=
  Byte.of_N ((i3 mod 4) * 64 + i4)%N.

(** Decoder for padded input: groups of four characters, the last of
    which may end in one or two [=]. *)
Fixpoint decode (s : string) : option (list byte) :=
  match s with
  | EmptyString => Some []
  | String c1 (String c2 (String c3 (String c4 rest))) =>
    i1 ← index_of c1;
    i2 ← index_of c2;
    a ← octet1 i1 i2;
    match rest with
    | EmptyString =>
      if Ascii.eqb c4 pad then
        if Ascii.eqb c3 pad then Some [a]
        else
          i3 ← index_of c3;
          b ← octet2 i2 i3;
          Some [a; b]
      else
        i3 ← index_of c3;
        i4 ← index_of c4;
        b ← octet2 i2 i3;
        c ← octet3 i3 i4;
        Some [a; b; c]
    | _ =>
      i3 ← index_of c3;
      i4 ← index_of c4;
      b ← octet2 i2 i3;
      c ← octet3 i3 i4;
      tl ← decode rest;
      Some (a :: b :: c :: tl)
    end
  | _ => None
  end.

(** Padding an unpadded encoding back to a multiple of four characters. *)
Fixpoint pad_string (n : nat) : string :=
  match n with
  | O => EmptyString
  | S n' => String pad (pad_string n')
  end.

Definition repad (s : string) : string :=
  s +:+ pad_string ((4 - String.length s mod 4) mod 4)%nat.

End Base64.

(* ===================================================================== *)
(** ** [urnify] (model-derivative.js)                                    *)
(* ===================================================================== *)

(** [Buffer.from(id)]: the identifier as its sequence of octets.  The
    identifier is given as the byte string that [Buffer.from] produces
    (Rocq's [string] is a string of octets). *)
Definition Buffer_from (id : string) : list byte := list_byte_of_string id.

(** [s.replace(/=/g, '')]: every [=] is removed, wherever it stands. *)
Fixpoint replace_eq (s : string) : string :=
  match s with
  | EmptyString => EmptyString
  | String c s' =>
    if Ascii.eqb c "="%char then replace_eq s' else String c (replace_eq s')
  end.

(** [Buffer.from(id).toString('base64').replace(/=/g, '')] *)
Definition urnify (id : string) : string :=
  replace_eq (Base64.encode (Buffer_from id)).

(** Occurrence of a character in a string. *)
Fixpoint occurs (c : ascii) (s : string) : bool :=
  match s with
  | EmptyString => false
  | String d s' => Ascii.eqb c d || occurs c s'
  end.

(* ===================================================================== *)
(** ** [ManifestHelper] (model-derivative.js)                            *)
(* ===================================================================== *)

Module Manifest.

(** A derivative object of the manifest.  Only the properties that
    [search] and [traverse] read are kept; a property the object does not
    carry is [None].  The entries of [manifest.derivatives] are objects of
    the same shape. *)
#[warnings="-register-all"]
Inductive DerivativeChild : Type :=
  Node (guid type role : option string)
       (children : option (list DerivativeChild)).

Definition guid (n : DerivativeChild) : option string :=
  match n with Node g _ _ _ => g end.
Definition type (n : DerivativeChild) : option string :=
  match n with Node _ t _ _ => t end.
Definition role (n : DerivativeChild) : option string :=
  match n with Node _ _ r _ => r end.
Definition children (n : DerivativeChild) : option (list DerivativeChild) :=
  match n with Node _ _ _ c => c end.

Record IDerivativeManifest : Type :=
  { derivatives : list DerivativeChild }.

(** The query dictionary of [search]: [None] is a property that is
    [null] or [undefined]. *)
Record Query : Type :=
  { q_guid : option string; q_type : option string; q_role : option string }.

Definition isNullOrUndefined (value : option string) : bool :=
  match value with None => true | Some _ => false end.

(** [a === b] on property values. *)
Definition strict_eq (a b : option string) : bool := bool_decide (a = b).

Section Traverse.

(** The callback may update state of its own (as [search]'s does with
    [matches]); it is given that state and returns it with its verdict. *)
Context {St : Type}.
Variable callback : DerivativeChild -> St -> bool * St.

(** [for (const child of cs) body(child)] *)
Definition for_of (body : DerivativeChild -> St -> St)
  (cs : list DerivativeChild) (st : St) : St :=
  fold_left (fun acc child => body child acc) cs st.

Fixpoint process (node : DerivativeChild) (st : St) : St :=
  let '(proceed, st1) := callback node st in
  if proceed then
    match children node with
    | Some cs => for_of process cs st1
    | None => st1
    end
  else st1.

Definition traverse (manifest : IDerivativeManifest) (st : St) : St :=
  for_of
    (fun derivative acc =>
       match children derivative with
       | Some cs => for_of process cs acc
       | None => acc
       end)
    (derivatives manifest) st.

End Traverse.

Definition query_matches (query : Query) (child : DerivativeChild) : bool :=
  (isNullOrUndefined (q_guid query) || strict_eq (guid child) (q_guid query))
  && (isNullOrUndefined (q_type query) || strict_eq (type child) (q_type query))
  && (isNullOrUndefined (q_role query) || strict_eq (role child) (q_role query)).

Definition search (manifest : IDerivativeManifest) (query : Query)
  : list DerivativeChild :=
  traverse
    (fun child matches =>
       (true, if query_matches query child then matches ++ [child] else matches))
    manifest [].

(** *** Vocabulary for the statements *)

(** The children of a node, none when the property is missing. *)
Definition kids (n : DerivativeChild) : list DerivativeChild :=
  default [] (children n).

(** A node followed by its descendants, depth first, parents before
    children, siblings left to right (document order). *)
Fixpoint preorder (n : DerivativeChild) : list DerivativeChild :=
  n :: match children n with
       | Some cs => flat_map preorder cs
       | None => []
       end.

(** The same walk, cut below every node at which [p] answers [false]. *)
Fixpoint pruned (p : DerivativeChild -> bool) (n : DerivativeChild)
  : list DerivativeChild :=
  n :: if p n
       then match children n with
            | Some cs => flat_map (pruned p) cs
            | None => []
            end
       else [].

(** Number of nodes of a subtree. *)
Definition size (n : DerivativeChild) : nat := length (preorder n).

(** The callback that records the nodes it is called on, in call order,
    and answers with the predicate [p]. *)
Definition recording (p : DerivativeChild -> bool)
  (n : DerivativeChild) (log : list DerivativeChild)
  : bool * list DerivativeChild :=
  (p n, log ++ [n]).

(** The nodes [process] hands to the callback, starting at [n]. *)
Definition visits (p : DerivativeChild -> bool) (n : DerivativeChild)
  : list DerivativeChild :=
  process (recording p) n [].

(** The nodes [traverse] hands to the callback. *)
Definition calls (p : DerivativeChild -> bool) (m : IDerivativeManifest)
  : list DerivativeChild :=
  traverse (recording p) m [].

Definition role_is (r : string) (n : DerivativeChild) : bool :=
  bool_decide (role n = Some r).

End Manifest.

(* ===================================================================== *)
(** ** [ModelDerivativeClient]: the requests its methods make            *)
(* ===================================================================== *)

Module ModelDerivative.

Definition RootPath : string := "modelderivative/v2".
Definition ReadTokenScopes : list string := ["data:read"].
Definition WriteTokenScopes : list string :=
  ["data:read"; "data:write"; "data:create"].

(** JavaScript truthiness of an optional string argument: [undefined]
    and the empty string are falsy. *)
Definition truthy (v : option string) : bool :=
  match v with
  | Some s => negb (String.eqb s "")
  | None => false
  end.

(** The helper of [ForgeClient] a method hands its request to. *)
Inductive Helper : Type :=
| Get | GetBuffer | GetStream | Post | Delete.

(** A call [this.<helper>(endpoint, ..., headers, scopes, repeatOn202)]. *)
Record HelperCall : Type :=
  { helper : Helper;
    endpoint : string;
    headers : list (string * string);
    scopes : list string;
    repeatOn202 : bool }.

Definition formats : HelperCall :=
  {| helper := Get; endpoint := "designdata/formats"; headers := [];
     scopes := ReadTokenScopes; repeatOn202 := false |}.

Definition getManifest (region : Forge.Region) (urn : string) : HelperCall :=
  {| helper := Get;
     endpoint :=
       match region with
       | Forge.EMEA => "regions/eu/designdata/" +:+ urn +:+ "/manifest"
       | Forge.US => "designdata/" +:+ urn +:+ "/manifest"
       end;
     headers := []; scopes := ReadTokenScopes; repeatOn202 := true |}.

Definition deleteManifest (region : Forge.Region) (urn : string)
  : HelperCall :=
  {| helper := Delete;
     endpoint :=
       match region with
       | Forge.EMEA => "regions/eu/designdata/" +:+ urn +:+ "/manifest"
       | Forge.US => "designdata/" +:+ urn +:+ "/manifest"
       end;
     headers := []; scopes := WriteTokenScopes; repeatOn202 := false |}.

(** The URL shared by [getDerivative], [getDerivativeStream] and
    [getDerivativeChunked]. *)
Definition derivative_url (region : Forge.Region)
  (modelUrn derivativeUrn : string) : string :=
  match region with
  | Forge.EMEA =>
    "regions/eu/designdata/" +:+ modelUrn +:+ "/manifest/" +:+ derivativeUrn
  | Forge.US => "designdata/" +:+ modelUrn +:+ "/manifest/" +:+ derivativeUrn
  end.

Definition getDerivative (region : Forge.Region)
  (modelUrn derivativeUrn : string) : HelperCall :=
  {| helper := GetBuffer;
     endpoint := derivative_url region modelUrn derivativeUrn;
     headers := []; scopes := ReadTokenScopes; repeatOn202 := false |}.

Definition getDerivativeStream (region : Forge.Region)
  (modelUrn derivativeUrn : string) : HelperCall :=
  {| helper := GetStream;
     endpoint := derivative_url region modelUrn derivativeUrn;
     headers := []; scopes := ReadTokenScopes; repeatOn202 := false |}.

Definition getMetadata (region : Forge.Region) (urn : string) : HelperCall :=
  {| helper := Get;
     endpoint :=
       match region with
       | Forge.EMEA => "regions/eu/designdata/" +:+ urn +:+ "/metadata"
       | Forge.US => "designdata/" +:+ urn +:+ "/metadata"
       end;
     headers := []; scopes := ReadTokenScopes; repeatOn202 := true |}.

Definition getMetadataStream (region : Forge.Region) (urn : string)
  : HelperCall :=
  {| helper := GetStream;
     endpoint :=
       match region with
       | Forge.EMEA => "regions/eu/designdata/" +:+ urn +:+ "/metadata"
       | Forge.US => "designdata/" +:+ urn +:+ "/metadata"
       end;
     headers := []; scopes := ReadTokenScopes; repeatOn202 := true |}.

(** [${force ? '?forceget=true' : ''}] *)
Definition forceget (force : bool) : string :=
  if force then "?forceget=true" else "".

Definition getViewableTree (region : Forge.Region) (urn guid : string)
  (force : bool) : HelperCall :=
  {| helper := Get;
     endpoint :=
       match region with
       | Forge.EMEA =>
         "regions/eu/designdata/" +:+ urn +:+ "/metadata/" +:+ guid
         +:+ forceget force
       | Forge.US =>
         "designdata/" +:+ urn +:+ "/metadata/" +:+ guid +:+ forceget force
       end;
     headers := []; scopes := ReadTokenScopes; repeatOn202 := true |}.

(** Here the URL is built first and [url += '?forceget=true'] runs when
    [force] is set. *)
Definition getViewableTreeStream (region : Forge.Region) (urn guid : string)
  (force : bool) : HelperCall :=
  let url :=
    match region with
    | Forge.EMEA => "regions/eu/designdata/" +:+ urn +:+ "/metadata/" +:+ guid
    | Forge.US => "designdata/" +:+ urn +:+ "/metadata/" +:+ guid
    end in
  let url := if force then url +:+ "?forceget=true" else url in
  {| helper := GetStream; endpoint := url; headers := [];
     scopes := ReadTokenScopes; repeatOn202 := true |}.

Definition getViewableProperties (region : Forge.Region) (urn guid : string)
  (force : bool) : HelperCall :=
  {| helper := Get;
     endpoint :=
       match region with
       | Forge.EMEA =>
         "regions/eu/designdata/" +:+ urn +:+ "/metadata/" +:+ guid
         +:+ "/properties" +:+ forceget force
       | Forge.US =>
         "designdata/" +:+ urn +:+ "/metadata/" +:+ guid
         +:+ "/properties" +:+ forceget force
       end;
     headers := []; scopes := ReadTokenScopes; repeatOn202 := true |}.

Definition getViewablePropertiesStream (region : Forge.Region)
  (urn guid : string) (force : bool) : HelperCall :=
  let url :=
    match region with
    | Forge.EMEA =>
      "regions/eu/designdata/" +:+ urn +:+ "/metadata/" +:+ guid
      +:+ "/properties"
    | Forge.US =>
      "designdata/" +:+ urn +:+ "/metadata/" +:+ guid +:+ "/properties"
    end in
  let url := if force then url +:+ "?forceget=true" else url in
  {| helper := GetStream; endpoint := url; headers := [];
     scopes := ReadTokenScopes; repeatOn202 := true |}.

Inductive ThumbnailSize : Type := Small | Medium | Large.

Definition ThumbnailSize_value (size : ThumbnailSize) : Z :=
  match size with Small => 100 | Medium => 200 | Large => 400 end.

Definition getThumbnail (region : Forge.Region) (urn : string)
  (size : ThumbnailSize) : HelperCall :=
  let endpoint :=
    match region with
    | Forge.EMEA => "regions/eu/designdata/" +:+ urn +:+ "/thumbnail"
    | Forge.US => "designdata/" +:+ urn +:+ "/thumbnail"
    end in
  {| helper := GetBuffer;
     endpoint := endpoint +:+ "?width="
                 +:+ Chunked.decimal (ThumbnailSize_value size);
     headers := []; scopes := ReadTokenScopes; repeatOn202 := false |}.

Definition getThumbnailStream (region : Forge.Region) (urn : string)
  (size : ThumbnailSize) : HelperCall :=
  let endpoint :=
    match region with
    | Forge.EMEA => "regions/eu/designdata/" +:+ urn +:+ "/thumbnail"
    | Forge.US => "designdata/" +:+ urn +:+ "/thumbnail"
    end in
  {| helper := GetStream;
     endpoint := endpoint +:+ "?width="
                 +:+ Chunked.decimal (ThumbnailSize_value size);
     headers := []; scopes := ReadTokenScopes; repeatOn202 := false |}.

(** *** [submitJob] *)

(** The body of a translation job.  A property that is not set on the
    object is [None]; [outputs] and [workflowAttr] are passed through as
    given. *)
Record JobInput : Type :=
  { input_urn : string;
    compressedUrn : option bool;
    rootFilename : option string }.

Record JobMisc : Type :=
  { workflow : string; workflowAttribute : option string }.

Record JobParams : Type :=
  { input : JobInput;
    output_formats : list string;
    output_destination_region : Forge.Region;
    misc : option JobMisc }.

(** [submitJob(urn, outputs, pathInArchive, force, workflowId,
    workflowAttr)]: the body and the [post] it is sent by. *)
Definition submitJob (region : Forge.Region) (urn : string)
  (outputs : list string) (pathInArchive : option string) (force : bool)
  (workflowId workflowAttr : option string) : JobParams * HelperCall :=
  let input0 :=
    {| input_urn := urn; compressedUrn := None; rootFilename := None |} in
  let input1 :=
    if truthy pathInArchive
    then {| input_urn := urn; compressedUrn := Some true;
            rootFilename := pathInArchive |}
    else input0 in
  let misc1 :=
    if truthy workflowId
    then Some {| workflow := default "" workflowId;
                 workflowAttribute :=
                   if truthy workflowAttr then workflowAttr else None |}
    else None in
  let headers1 := if force then [("x-ads-force", "true")] else [] in
  ({| input := input1;
      output_formats := outputs;
      output_destination_region := region;
      misc := misc1 |},
   {| helper := Post; endpoint := "designdata/job"; headers := headers1;
      scopes := WriteTokenScopes; repeatOn202 := false |}).

End ModelDerivative.

(* ===================================================================== *)
(** ** Further vocabulary for the statements                             *)
(* ===================================================================== *)

Module Vocabulary.

(** A scope name without [/]. *)
Definition slash_free (s : string) : Prop := occurs "/"%char s = false.

(** An event of a client that never forces: a call with [force] off at
    a clock reading, or an answer. *)
Definition unforced (ev : Authentication.Event) : Prop :=
  match ev with
  | Authentication.Call _ force now =>
    force = false /\ Authentication.clock_reading now
  | Authentication.Reply _ _ _ => True
  end.

(** Every pending promise belongs to the entry under the name it closed
    over, and that entry still carries the sentinel. *)
Definition pending_owned (this : Authentication.AuthenticationClient)
  : Prop :=
  forall r c k,
    Authentication.objects this !! r = Some c ->
    Authentication.promise c = Authentication.Pending k ->
    Authentication._cached this !! k = Some r
    /\ Authentication.expires_at c = Authentication.MAX_VALUE.

(** The answer in hand says 202. *)
Definition says_202 (ex : Forge.Exchange) : Prop :=
  Forge.status (Forge.response ex) = 202.

(** Time taken by a run of exchanges made one after the other. *)
Definition total_latency (exs : list Forge.Exchange) : Z :=
  fold_right (fun ex acc => Forge.latency ex + acc) 0 exs.

(** What [get] makes of the answer that ends its loop. *)
Definition final_outcome (ex : Forge.Exchange) : Forge.Outcome :=
  if Forge.validateStatus (Forge.status (Forge.response ex))
  then Forge.Returned (Forge.data (Forge.response ex))
  else Forge.Threw (Forge.status (Forge.response ex)).

(** The base URL of the HTTP client agrees with [host] and [root], and
    [host] is not empty. *)
Definition coherent (c : Forge.ForgeClient) : Prop :=
  Forge.baseURL (Forge.axios c)
  = Forge.host c +:+ "/" +:+ Forge.root c +:+ "/"
  /\ Forge.host c <> "".

(** [q'] asks for everything [q] asks for. *)
Definition narrows (q q' : Manifest.Query) : Prop :=
  (Manifest.q_guid q = None \/ Manifest.q_guid q = Manifest.q_guid q')
  /\ (Manifest.q_type q = None \/ Manifest.q_type q = Manifest.q_type q')
  /\ (Manifest.q_role q = None \/ Manifest.q_role q = Manifest.q_role q').

(** All nodes [traverse] can reach, in document order. *)
Definition reachable (m : Manifest.IDerivativeManifest)
  : list Manifest.DerivativeChild :=
  flat_map Manifest.preorder (flat_map Manifest.kids (Manifest.derivatives m)).



End Vocabulary.

(* ===================================================================== *)
(** * Properties                                                         *)
(* ===================================================================== *)

(** ** Base64 and [urnify] *)

Section Base64Facts.
Import Base64.

Lemma below_64_cases (P : N -> bool) :
  forallb (fun n => P (N.of_nat n)) (seq 0 64) = true ->
  forall i : N, (i < 64)%N -> P i = true.
Proof.
  intros Hall i Hi.
  rewrite forallb_forall in Hall.
  specialize (Hall (N.to_nat i)).
  rewrite N2Nat.id in Hall. apply Hall.
  apply in_seq. lia.
Qed.

Lemma char_of_not_pad (i : N) :
  (i < 64)%N -> Ascii.eqb (char_of i) pad = false.
Proof.
  intros Hi.
  apply (below_64_cases (fun i => negb (Ascii.eqb (char_of i) pad))) in Hi.
  - now apply negb_true_iff in Hi.
  - vm_compute. reflexivity.
Qed.

Lemma index_of_char_of (i : N) :
  (i < 64)%N -> index_of (char_of i) = Some i.
Proof.
  intros Hi.
  apply (below_64_cases
           (fun i => match index_of (char_of i) with
                     | Some j => N.eqb j i
                     | None => false
                     end)) in Hi.
  - destruct (index_of (char_of i)) as [j|]; [|discriminate].
    apply N.eqb_eq in Hi. now subst.
  - vm_compute. reflexivity.
Qed.

Lemma byte_bound (b : byte) : (Byte.to_N b < 256)%N.
Proof. pose proof (Byte.to_N_bounded b). lia. Qed.

Lemma octet1_regroup (a b : byte) :
  octet1 (Byte.to_N a / 4) ((Byte.to_N a mod 4) * 16 + Byte.to_N b / 16)
  = Some a.
Proof.
  unfold octet1. rewrite <- (Byte.of_to_N a). f_equal.
  pose proof (byte_bound a). pose proof (byte_bound b). lia.
Qed.

Lemma octet1_regroup_last (a : byte) :
  octet1 (Byte.to_N a / 4) ((Byte.to_N a mod 4) * 16) = Some a.
Proof.
  unfold octet1. rewrite <- (Byte.of_to_N a). f_equal.
  pose proof (byte_bound a). lia.
Qed.

Lemma octet2_regroup (a b c : byte) :
  octet2 ((Byte.to_N a mod 4) * 16 + Byte.to_N b / 16)
         ((Byte.to_N b mod 16) * 4 + Byte.to_N c / 64)
  = Some b.
Proof.
  unfold octet2. rewrite <- (Byte.of_to_N b). f_equal.
  pose proof (byte_bound a). pose proof (byte_bound b).
  pose proof (byte_bound c). lia.
Qed.

Lemma octet2_regroup_last (a b : byte) :
  octet2 ((Byte.to_N a mod 4) * 16 + Byte.to_N b / 16)
         ((Byte.to_N b mod 16) * 4)
  = Some b.
Proof.
  unfold octet2. rewrite <- (Byte.of_to_N b). f_equal.
  pose proof (byte_bound a). pose proof (byte_bound b). lia.
Qed.

Lemma octet3_regroup (b c : byte) :
  octet3 ((Byte.to_N b mod 16) * 4 + Byte.to_N c / 64) (Byte.to_N c mod 64)
  = Some c.
Proof.
  unfold octet3. rewrite <- (Byte.of_to_N c). f_equal.
  pose proof (byte_bound b). pose proof (byte_bound c). lia.
Qed.

(** Induction over a list of octets three at a time, the way the encoder
    consumes it. *)
Lemma octets_ind3 (P : list byte -> Prop) :
  P [] -> (forall a, P [a]) -> (forall a b, P [a; b]) ->
  (forall a b c rest, P rest -> P (a :: b :: c :: rest)) ->
  forall bs, P bs.
Proof.
  intros H0 H1 H2 H3.
  assert (Hall : forall n bs, (length bs <= n)%nat -> P bs).
  { induction n as [|n IH]; intros bs Hn.
    - destruct bs; [exact H0 | simpl in Hn; lia].
    - destruct bs as [|a [|b [|c rest]]]; auto.
      apply H3, IH. simpl in Hn. lia. }
  intros bs. now apply (Hall (length bs)).
Qed.

Ltac six_bit :=
  repeat match goal with
         | |- context [Byte.to_N ?b] =>
           lazymatch goal with
           | _ : (Byte.to_N b < 256)%N |- _ => fail
           | _ => pose proof (byte_bound b)
           end
         end;
  lia.

Lemma encode_group (a b c : byte) (rest : list byte) :
  encode (a :: b :: c :: rest)
  = String (char_of (Byte.to_N a / 4))
      (String (char_of ((Byte.to_N a mod 4) * 16 + Byte.to_N b / 16))
         (String (char_of ((Byte.to_N b mod 16) * 4 + Byte.to_N c / 64))
            (String (char_of (Byte.to_N c mod 64)) (encode rest)))).
Proof. reflexivity. Qed.

Lemma encode_nonempty (a : byte) (bs : list byte) :
  encode (a :: bs) <> EmptyString.
Proof. destruct bs as [|b [|c rest]]; discriminate. Qed.

Lemma occurs_replace_eq (s : string) : occurs "="%char (replace_eq s) = false.
Proof.
  induction s as [|c s IH]; [reflexivity|].
  cbn [replace_eq]. destruct (Ascii.eqb c "="%char) eqn:E; [exact IH|].
  cbn [occurs]. rewrite Ascii.eqb_sym, E. exact IH.
Qed.

Lemma repad_cons4 (c1 c2 c3 c4 : ascii) (s : string) :
  repad (String c1 (String c2 (String c3 (String c4 s))))
  = String c1 (String c2 (String c3 (String c4 (repad s)))).
Proof.
  unfold repad. cbn [String.length String.append].
  replace (S (S (S (S (String.length s)))))
    with (String.length s + 1 * 4)%nat by lia.
  now rewrite Nat.Div0.mod_add.
Qed.

Lemma repad_replace_encode (bs : list byte) :
  repad (replace_eq (encode bs)) = encode bs.
Proof.
  induction bs as [| a | a b | a b c rest IH] using octets_ind3.
  - reflexivity.
  - cbn [encode replace_eq].
    change "="%char with pad.
    rewrite !char_of_not_pad by six_bit. reflexivity.
  - cbn [encode replace_eq].
    change "="%char with pad.
    rewrite !char_of_not_pad by six_bit. reflexivity.
  - rewrite encode_group. cbn [replace_eq].
    change "="%char with pad.
    rewrite !char_of_not_pad by six_bit.
    now rewrite repad_cons4, IH.
Qed.

Lemma decode_encode (bs : list byte) : decode (encode bs) = Some bs.
Proof.
  induction bs as [| a | a b | a b c rest IH] using octets_ind3.
  - reflexivity.
  - cbn [encode decode].
    rewrite !index_of_char_of by six_bit. cbn [mbind option_bind].
    rewrite octet1_regroup_last. cbn [mbind option_bind].
    now rewrite Ascii.eqb_refl.
  - cbn [encode decode].
    rewrite !index_of_char_of by six_bit. cbn [mbind option_bind].
    rewrite octet1_regroup. cbn [mbind option_bind].
    rewrite Ascii.eqb_refl, char_of_not_pad by six_bit.
    now rewrite octet2_regroup_last.
  - rewrite encode_group. cbn [decode].
    rewrite !index_of_char_of by six_bit. cbn [mbind option_bind].
    rewrite octet1_regroup. cbn [mbind option_bind].
    rewrite (octet2_regroup a b c), octet3_regroup.
    cbn [mbind option_bind].
    rewrite char_of_not_pad by six_bit.
    destruct rest as [|d rest'].
    + reflexivity.
    + destruct (encode (d :: rest')) eqn:E.
      * now apply encode_nonempty in E.
      * now rewrite IH.
Qed.

End Base64Facts.

(** ** Token cache *)

Section AuthenticationFacts.
Import Authentication.

Lemma sentinel_after_clock (t : Z) :
  clock_reading t -> (MAX_VALUE >? t) = true.
Proof.
  intros [_ Hhi].
  assert (Hbig : 8640000000000000 < MAX_VALUE) by (vm_compute; reflexivity).
  apply Z.gtb_lt. lia.
Qed.

Lemma authenticate_hit this scopes force now ref :
  cached_hit this (cache_key scopes) force now = Some ref ->
  authenticate this scopes force now = (this, ThenOf ref).
Proof. intros H. unfold authenticate. now rewrite H. Qed.

Lemma authenticate_miss this scopes force now :
  cached_hit this (cache_key scopes) force now = None ->
  authenticate this scopes force now
  = ({| client_id := client_id this;
        client_secret := client_secret this;
        host := host this;
        _cached := <[cache_key scopes := length (objects this)]> (_cached this);
        objects := objects this
                   ++ [{| expires_at := MAX_VALUE;
                          promise := Pending (cache_key scopes) |}];
        posts := posts this
                 ++ [(host this +:+ "/" +:+ RootPath +:+ "/" +:+ "authenticate",
                      authenticate_params this scopes)] |},
     ThenOf (length (objects this))).
Proof. intros H. unfold authenticate. now rewrite H. Qed.

Lemma cached_hit_forced this key now : cached_hit this key true now = None.
Proof. reflexivity. Qed.

Lemma owns_hit key ref pr this now :
  owns key ref pr this -> clock_reading now ->
  cached_hit this key false now = Some ref.
Proof.
  intros (Hk & Ho & _) Hnow. unfold cached_hit. cbn [negb].
  rewrite Hk, Ho. cbn [expires_at]. now rewrite sentinel_after_clock.
Qed.

(** The first request for a name, or a forced one, takes the entry. *)
Lemma owns_after_miss this scopes force now :
  refs_bounded this ->
  ~ in_flight (cache_key scopes) this ->
  cached_hit this (cache_key scopes) force now = None ->
  let c1 := fst (authenticate this scopes force now) in
  refs_bounded c1
  /\ owns (cache_key scopes) (length (objects this))
       (Pending (cache_key scopes)) c1.
Proof.
  intros Hb Hnone Hmiss. rewrite (authenticate_miss _ _ _ _ Hmiss).
  cbn [fst]. split; [|split; [|split; [|split]]]; cbn [_cached objects].
  - unfold refs_bounded. cbn [_cached objects].
    apply map_Forall_insert_2.
    + rewrite length_app. cbn. lia.
    + eapply map_Forall_impl; [exact Hb|].
      intros k r Hr. cbn beta in *. rewrite length_app. cbn. lia.
  - apply lookup_insert_eq.
  - rewrite lookup_app_r by lia. now rewrite Nat.sub_diag.
  - intros k Hk. destruct (decide (cache_key scopes = k)) as [->|Hne]; [done|].
    rewrite lookup_insert_ne in Hk by done.
    apply (map_Forall_lookup_1 _ _ _ _ Hb) in Hk. cbn beta in Hk. lia.
  - intros r c Hr Hc.
    destruct (decide (r < length (objects this))%nat) as [Hlt|Hge].
    + rewrite lookup_app_l in Hr by done.
      exfalso. apply Hnone. now exists r, c.
    + apply lookup_lt_Some in Hr. rewrite length_app in Hr. cbn in Hr. lia.
Qed.

Lemma owns_step key ref pr this ev :
  refs_bounded this -> owns key ref pr this ->
  unforced_for key ev ->
  (forall resp t, ev = Reply ref resp t -> forall k, pr <> Pending k) ->
  refs_bounded (step this ev) /\ owns key ref pr (step this ev).
Proof.
  intros Hb Hown Hev Hans.
  pose proof Hown as (Hk & Ho & Hexcl & Hpend).
  destruct ev as [scopes force now | r resp now]; cbn [step].
  - destruct Hev as [Hnow Hforce].
    destruct (cached_hit this (cache_key scopes) force now) as [hit|] eqn:Hhit.
    { rewrite (authenticate_hit _ _ _ _ _ Hhit). now cbn [fst]. }
    assert (Hne : cache_key scopes <> key).
    { intros <-. destruct force; [now apply Hforce|].
      rewrite (owns_hit _ _ _ _ _ Hown Hnow) in Hhit. discriminate. }
    rewrite (authenticate_miss _ _ _ _ Hhit). cbn [fst].
    pose proof (lookup_lt_Some _ _ _ Ho) as Hlt.
    split; [|split; [|split; [|split]]]; cbn [_cached objects].
    + unfold refs_bounded. cbn [_cached objects].
      apply map_Forall_insert_2.
      * rewrite length_app. cbn. lia.
      * eapply map_Forall_impl; [exact Hb|].
        intros k r' Hr. cbn beta in *. rewrite length_app. cbn. lia.
    + now rewrite lookup_insert_ne.
    + now rewrite lookup_app_l.
    + intros k Hk'.
      destruct (decide (cache_key scopes = k)) as [<-|Hne'].
      * rewrite lookup_insert_eq in Hk'. injection Hk' as Hk'. lia.
      * rewrite lookup_insert_ne in Hk' by done. now apply Hexcl.
    + intros r c Hr Hc.
      destruct (decide (r < length (objects this))%nat) as [Hlt'|Hge].
      * rewrite lookup_app_l in Hr by done. now apply (Hpend r c).
      * pose proof (lookup_lt_Some _ _ _ Hr) as Hr'.
        rewrite length_app in Hr'. cbn in Hr'.
        assert (r = length (objects this)) as -> by lia.
        rewrite lookup_app_r, Nat.sub_diag in Hr by lia.
        injection Hr as <-. cbn in Hc. congruence.
  - unfold respond.
    destruct (objects this !! r) as [cache|] eqn:Hr; [|done].
    destruct (promise cache) as [k| |] eqn:Hp; [|done|done].
    assert (Hrne : r <> ref).
    { intros ->. rewrite Ho in Hr. injection Hr as <-. cbn in Hp.
      now apply (Hans resp now eq_refl k). }
    assert (Hkne : k <> key).
    { intros ->. apply Hrne. now apply (Hpend r cache). }
    assert (Hsettle : forall pr' objs,
               (forall k', pr' <> Pending k') ->
               length objs = length (objects this) ->
               objs !! ref = objects this !! ref ->
               (forall r' c', objs !! r' = Some c' ->
                  promise c' = Pending key ->
                  exists c, objects this !! r' = Some c
                            /\ promise c = Pending key) ->
               refs_bounded (with_objects this (alter (set_promise pr') r objs))
               /\ owns key ref pr
                    (with_objects this (alter (set_promise pr') r objs))).
    { intros pr' objs Hpr' Hlen Href Hsame.
      split; [|split; [|split; [|split]]]; cbn [with_objects _cached objects].
      - unfold refs_bounded. cbn [with_objects _cached objects].
        now rewrite length_alter, Hlen.
      - exact Hk.
      - rewrite list_lookup_alter_ne by done. now rewrite Href.
      - exact Hexcl.
      - intros r' c' Hr' Hc'.
        destruct (decide (r = r')) as [<-|Hne].
        + rewrite list_lookup_alter_eq in Hr'.
          destruct (objs !! r); [|discriminate].
          cbn in Hr'. injection Hr' as <-. cbn in Hc'.
          now apply Hpr' in Hc'.
        + rewrite list_lookup_alter_ne in Hr' by done.
          destruct (Hsame r' c' Hr' Hc') as (c & Hc1 & Hc2).
          now apply (Hpend r' c). }
    destruct resp as [data|err].
    + destruct (_cached this !! k) as [target|] eqn:Ht.
      * apply Hsettle.
        -- discriminate.
        -- apply length_alter.
        -- apply list_lookup_alter_ne. intros ->. apply Hkne. now apply Hexcl.
        -- intros r' c' Hr' Hc'.
           destruct (decide (target = r')) as [<-|Hne].
           ++ rewrite list_lookup_alter_eq in Hr'.
              destruct (objects this !! target) as [c|]; [|discriminate].
              cbn in Hr'. injection Hr' as <-. now exists c.
           ++ rewrite list_lookup_alter_ne in Hr' by done. now exists c'.
      * apply Hsettle; [discriminate|done|done|].
        intros r' c' ? ?. now exists c'.
    + apply Hsettle; [discriminate|done|done|].
      intros r' c' ? ?. now exists c'.
Qed.

Lemma owns_run key ref pr evs :
  (forall k, pr = Pending k -> Forall (unanswered ref) evs) ->
  Forall (unforced_for key) evs ->
  forall this,
    refs_bounded this -> owns key ref pr this ->
    refs_bounded (run this evs) /\ owns key ref pr (run this evs).
Proof.
  intros Hans Hevs. induction Hevs as [|ev evs Hev _ IH]; intros this Hb Hown.
  - now split.
  - cbn [run fold_left].
    destruct (owns_step key ref pr this ev Hb Hown Hev) as [Hb' Hown'].
    { intros resp t -> k ->.
      specialize (Hans k eq_refl). inversion Hans as [|? ? Hne]. now apply Hne. }
    apply IH; [|done|done].
    intros k Hk. specialize (Hans k Hk). now inversion Hans.
Qed.




(** A successful answer to the request that holds the entry of its
    own name records the expiry in that same object and fulfils its
    promise. *)
Lemma respond_ok_own this key ref x data now :
  _cached this !! key = Some ref ->
  objects this !! ref = Some {| expires_at := x; promise := Pending key |} ->
  let c := respond this ref (Ok data) now in
  objects c !! ref
  = Some {| expires_at := now + data_expires_in data * 1000;
            promise := Fulfilled (data_access_token data) |}
  /\ _cached c = _cached this /\ posts c = posts this.
Proof.
  intros Hk Ho. cbn zeta. unfold respond. rewrite Ho. cbn [promise].
  rewrite Hk. cbn [with_objects objects _cached posts].
  split; [|done].
  rewrite list_lookup_alter_eq, list_lookup_alter_eq, Ho. reflexivity.
Qed.

Lemma respond_failure_own this ref x key err now :
  objects this !! ref = Some {| expires_at := x; promise := Pending key |} ->
  let c := respond this ref (Failure err) now in
  objects c !! ref = Some {| expires_at := x; promise := Rejected err |}
  /\ _cached c = _cached this /\ posts c = posts this
  /\ length (objects c) = length (objects this)
  /\ (forall r, r <> ref -> objects c !! r = objects this !! r).
Proof.
  intros Ho. cbn zeta. unfold respond. rewrite Ho. cbn [promise].
  cbn [with_objects objects _cached posts].
  split; [|split; [done|split; [done|split]]].
  - rewrite list_lookup_alter_eq, Ho. reflexivity.
  - apply length_alter.
  - intros r Hr. now apply list_lookup_alter_ne.
Qed.

(** The client right after a call that went to the network. *)
Lemma after_miss this scopes force now :
  cached_hit this (cache_key scopes) force now = None ->
  let ref := length (objects this) in
  let c1 := fst (authenticate this scopes force now) in
  snd (authenticate this scopes force now) = ThenOf ref
  /\ _cached c1 !! cache_key scopes = Some ref
  /\ objects c1 !! ref
     = Some {| expires_at := MAX_VALUE;
               promise := Pending (cache_key scopes) |}
  /\ posts c1
     = posts this
       ++ [(host this +:+ "/" +:+ RootPath +:+ "/" +:+ "authenticate",
            authenticate_params this scopes)].
Proof.
  intros Hmiss. cbn zeta. rewrite (authenticate_miss _ _ _ _ Hmiss).
  cbn [fst snd _cached objects posts].
  split; [reflexivity|]. split; [apply lookup_insert_eq|].
  split; [|reflexivity].
  rewrite lookup_app_r by lia. now rewrite Nat.sub_diag.
Qed.

(** An entry that carries the sentinel is a hit at every clock reading. *)
Lemma sentinel_hit this key ref pr now :
  _cached this !! key = Some ref ->
  objects this !! ref = Some {| expires_at := MAX_VALUE; promise := pr |} ->
  clock_reading now ->
  cached_hit this key false now = Some ref.
Proof.
  intros Hk Ho Hnow. unfold cached_hit. cbn [negb].
  rewrite Hk, Ho. cbn [expires_at]. now rewrite sentinel_after_clock.
Qed.

(** The sharing of one request holds up when other things happen
    between the two calls: calls that do not force this name, answers to
    other requests.  It takes that no older request for the name is
    still unanswered when the first call is made. *)
Theorem joined_call_shares_request
  (this : AuthenticationClient) (scopes : list string)
  (t1 t2 : Z) (evs : list Event) :
  refs_bounded this ->
  ~ in_flight (cache_key scopes) this ->
  cached_hit this (cache_key scopes) false t1 = None ->
  Forall (unforced_for (cache_key scopes)) evs ->
  Forall (unanswered (length (objects this))) evs ->
  clock_reading t2 ->
  let key := cache_key scopes in
  let c1 := fst (authenticate this scopes false t1) in
  let p1 := snd (authenticate this scopes false t1) in
  let c1' := run c1 evs in
  let c2 := fst (authenticate c1' scopes false t2) in
  let p2 := snd (authenticate c1' scopes false t2) in
  posts c1
  = posts this
    ++ [(host this +:+ "/" +:+ RootPath +:+ "/" +:+ "authenticate",
         authenticate_params this scopes)]
  /\ (exists ref,
        p1 = ThenOf ref
        /\ _cached c1 !! key = Some ref
        /\ objects c1 !! ref
           = Some {| expires_at := MAX_VALUE; promise := Pending key |})
  /\ c2 = c1' /\ p2 = p1
  /\ forall data t3 ta tb,
       let c3 := respond c2 (cache_of p1) (Ok data) t3 in
       settle c3 p1 ta
       = Resolves {| access_token := data_access_token data;
                     expires_in :=
                       (t3 + data_expires_in data * 1000 - ta) / 1000 |}
       /\ settle c3 p2 tb
          = Resolves {| access_token := data_access_token data;
                        expires_in :=
                          (t3 + data_expires_in data * 1000 - tb) / 1000 |}.
Proof.
  intros Hb Hnone Hmiss Hevs Hans Ht2. cbn zeta.
  destruct (owns_after_miss this scopes false t1 Hb Hnone Hmiss)
    as [Hb1 Hown1].
  destruct (owns_run (cache_key scopes) (length (objects this))
              (Pending (cache_key scopes)) evs (fun _ _ => Hans) Hevs
              _ Hb1 Hown1) as [Hb2 Hown2].
  pose proof (owns_hit _ _ _ _ t2 Hown2 Ht2) as Hhit.
  rewrite (authenticate_hit _ _ _ _ _ Hhit).
  rewrite (authenticate_miss _ _ _ _ Hmiss) in *. cbn [fst snd] in *.
  split; [reflexivity|]. split.
  { exists (length (objects this)).
    destruct Hown1 as (Hk & Ho & _). now split. }
  split; [reflexivity|]. split; [reflexivity|].
  intros data t3 ta tb. cbn zeta. cbn [cache_of].
  destruct Hown2 as (Hk & Ho & _).
  destruct (respond_ok_own _ _ _ _ data t3 Hk Ho) as (Hobj & _).
  unfold settle. cbn [cache_of]. rewrite Hobj. now cbn.
Qed.

Lemma joined_call_shares_request_witness :
  let this := new "id" "secret" None in
  let evs := [Call ["data:write"] false 1001] in
  let c1' := run (fst (authenticate this ["data:read"] false 1000)) evs in
  refs_bounded this
  /\ ~ in_flight (cache_key ["data:read"]) this
  /\ cached_hit this (cache_key ["data:read"]) false 1000 = None
  /\ Forall (unforced_for (cache_key ["data:read"])) evs
  /\ Forall (unanswered (length (objects this))) evs
  /\ clock_reading 1002
  /\ fst (authenticate c1' ["data:read"] false 1002) = c1'
  /\ snd (authenticate c1' ["data:read"] false 1002)
     = snd (authenticate this ["data:read"] false 1000).
Proof.
  cbn zeta.
  assert (Hb : refs_bounded (new "id" "secret" None))
    by apply map_Forall_empty.
  assert (Hnone : ~ in_flight (cache_key ["data:read"])
                      (new "id" "secret" None)).
  { intros (r & c & Hr & _). destruct r; discriminate Hr. }
  assert (Hmiss : cached_hit (new "id" "secret" None)
                    (cache_key ["data:read"]) false 1000 = None)
    by reflexivity.
  assert (Hevs : Forall (unforced_for (cache_key ["data:read"]))
                   [Call ["data:write"] false 1001]).
  { constructor; [|constructor]. split; [unfold clock_reading; lia|].
    intros H; discriminate H. }
  assert (Hans : Forall (unanswered (length (objects (new "id" "secret" None))))
                   [Call ["data:write"] false 1001]).
  { constructor; [exact I|constructor]. }
  assert (Ht2 : clock_reading 1002) by (unfold clock_reading; lia).
  pose proof (joined_call_shares_request
                (new "id" "secret" None) ["data:read"] 1000 1002
                [Call ["data:write"] false 1001]
                Hb Hnone Hmiss Hevs Hans Ht2) as (_ & _ & H1 & H2 & _).
  repeat (split; [assumption|]). exact H2.
Defined.



Lemma owns_settled key ref pr pr' this :
  owns key ref pr this ->
  (forall k, pr' <> Pending k) ->
  forall c,
    _cached c = _cached this ->
    objects c !! ref = Some {| expires_at := MAX_VALUE; promise := pr' |} ->
    (forall r, r <> ref -> objects c !! r = objects this !! r) ->
    owns key ref pr' c.
Proof.
  intros (Hk & Ho & Hexcl & Hpend) Hpr' c Hc Hobj Hrest.
  split; [|split; [|split]].
  - now rewrite Hc.
  - exact Hobj.
  - intros k. rewrite Hc. apply Hexcl.
  - intros r cache Hr Hp. destruct (decide (r = ref)) as [->|Hne]; [done|].
    rewrite Hrest in Hr by done. now apply (Hpend r cache).
Qed.

(** The failed entry stays in place whatever else happens short of a
    forced call for the same name, calls for other names and answers to
    other requests included.  It takes that no older request for the name
    is still unanswered when the failing one is sent. *)
Theorem failed_request_stays_poisoned
  (this : AuthenticationClient) (scopes : list string) (force : bool)
  (err : string) (t0 t1 t : Z) (joined later : list Event) :
  refs_bounded this ->
  ~ in_flight (cache_key scopes) this ->
  cached_hit this (cache_key scopes) force t0 = None ->
  Forall (unforced_for (cache_key scopes)) joined ->
  Forall (unanswered (length (objects this))) joined ->
  Forall (unforced_for (cache_key scopes)) later ->
  clock_reading t ->
  let key := cache_key scopes in
  let c1 := run (fst (authenticate this scopes force t0)) joined in
  let p := snd (authenticate this scopes force t0) in
  let c2 := respond c1 (cache_of p) (Failure err) t1 in
  let c3 := run c2 later in
  (forall ta, settle c2 p ta = Rejects err)
  /\ _cached c3 !! key = Some (cache_of p)
  /\ objects c3 !! cache_of p
     = Some {| expires_at := MAX_VALUE; promise := Rejected err |}
  /\ authenticate c3 scopes false t = (c3, p)
  /\ (forall ta, settle c3 p ta = Rejects err)
  /\ posts (fst (authenticate c3 scopes true t))
     = posts c3
       ++ [(host c3 +:+ "/" +:+ RootPath +:+ "/" +:+ "authenticate",
            authenticate_params c3 scopes)].
Proof.
  intros Hb Hnone Hmiss Hjoin Hans Hlater Ht. cbn zeta.
  destruct (owns_after_miss this scopes force t0 Hb Hnone Hmiss)
    as [Hb1 Hown1].
  destruct (owns_run (cache_key scopes) (length (objects this))
              (Pending (cache_key scopes)) joined (fun _ _ => Hans) Hjoin
              _ Hb1 Hown1) as [Hb2 Hown2].
  rewrite (authenticate_miss _ _ _ _ Hmiss) in *. cbn [fst snd cache_of] in *.
  set (c1 := run _ joined) in *.
  pose proof Hown2 as (Hk & Ho & _).
  destruct (respond_failure_own c1 _ _ _ err t1 Ho)
    as (Hobj & Hc & _ & Hlen & Hrest).
  set (c2 := respond c1 _ _ t1) in *.
  assert (Hown3 : owns (cache_key scopes) (length (objects this))
                    (Rejected err) c2).
  { apply (owns_settled _ _ _ _ c1 Hown2); try done. }
  assert (Hb3 : refs_bounded c2).
  { unfold refs_bounded. now rewrite Hc, Hlen. }
  destruct (owns_run (cache_key scopes) (length (objects this))
              (Rejected err) later) with (this := c2) as [Hb4 Hown4];
    try done.
  set (c3 := run c2 later) in *.
  pose proof Hown4 as (Hk4 & Ho4 & _).
  split.
  { intros ta. unfold settle. cbn [cache_of]. now rewrite Hobj. }
  split; [exact Hk4|]. split; [exact Ho4|]. split.
  { apply authenticate_hit. now apply (owns_hit _ _ (Rejected err)). }
  split.
  { intros ta. unfold settle. cbn [cache_of]. now rewrite Ho4. }
  now rewrite (authenticate_miss _ _ _ _ (cached_hit_forced _ _ _)).
Qed.

Lemma failed_request_stays_poisoned_witness :
  let this := new "id" "secret" None in
  let joined := [Call ["data:read"] false 1001] in
  let later := [Call ["data:write"] true 5000;
                Call ["data:read"] false 86400000] in
  let c1 := run (fst (authenticate this ["data:read"] false 1000)) joined in
  let p := snd (authenticate this ["data:read"] false 1000) in
  let c3 := run (respond c1 (cache_of p) (Failure "503") 1200) later in
  refs_bounded this
  /\ ~ in_flight (cache_key ["data:read"]) this
  /\ cached_hit this (cache_key ["data:read"]) false 1000 = None
  /\ Forall (unforced_for (cache_key ["data:read"])) joined
  /\ Forall (unanswered (length (objects this))) joined
  /\ Forall (unforced_for (cache_key ["data:read"])) later
  /\ clock_reading 172800000
  /\ authenticate c3 ["data:read"] false 172800000 = (c3, p)
  /\ settle c3 p 172800000 = Rejects "503".
Proof.
  cbn zeta.
  assert (Hb : refs_bounded (new "id" "secret" None))
    by apply map_Forall_empty.
  assert (Hnone : ~ in_flight (cache_key ["data:read"])
                      (new "id" "secret" None)).
  { intros (r & c & Hr & _). destruct r; discriminate Hr. }
  assert (Hmiss : cached_hit (new "id" "secret" None)
                    (cache_key ["data:read"]) false 1000 = None)
    by reflexivity.
  assert (Hjoin : Forall (unforced_for (cache_key ["data:read"]))
                    [Call ["data:read"] false 1001]).
  { constructor; [|constructor]. split; [unfold clock_reading; lia|].
    intros H; discriminate H. }
  assert (Hans : Forall (unanswered (length (objects (new "id" "secret" None))))
                   [Call ["data:read"] false 1001]).
  { constructor; [exact I|constructor]. }
  assert (Hlater : Forall (unforced_for (cache_key ["data:read"]))
                     [Call ["data:write"] true 5000;
                      Call ["data:read"] false 86400000]).
  { constructor; [|constructor; [|constructor]].
    - split; [unfold clock_reading; lia|]. intros _ H; discriminate H.
    - split; [unfold clock_reading; lia|]. intros H; discriminate H. }
  assert (Ht : clock_reading 172800000) by (unfold clock_reading; lia).
  pose proof (failed_request_stays_poisoned
                (new "id" "secret" None) ["data:read"] false "503"
                1000 1200 172800000 _ _
                Hb Hnone Hmiss Hjoin Hans Hlater Ht)
    as (_ & _ & _ & H1 & H2 & _).
  repeat (split; [assumption|]). exact (H2 172800000).
Defined.

(** What the two side conditions on requests in flight protect
    against.  A forced call made while an older request for the same
    name is unanswered replaces the entry; the older answer, when it
    comes, writes its expiry into the newer entry, whose own request has
    failed.  Once that expiry has passed, an unforced call sends a
    request again. *)
Example late_answer_reaches_newer_entry :
  let this := new "id" "secret" None in
  let c := run this
             [ Call ["data:read"] false 0;
               Call ["data:read"] true 1;
               Reply 1 (Failure "503") 2;
               Reply 0 (Ok {| data_access_token := "tok";
                              data_expires_in := 60 |}) 3 ] in
  objects c !! 1%nat
  = Some {| expires_at := 60003; promise := Rejected "503" |}
  /\ snd (authenticate c ["data:read"] false 50000) = ThenOf 1
  /\ snd (authenticate c ["data:read"] false 70000) = ThenOf 2.
Proof. repeat split. Qed.

End AuthenticationFacts.

(** ** Token cache: names, expiry, and what calls leave alone *)

Section AuthenticationMore.
Import Authentication Vocabulary.

(** *** Sharing and failure among other requests for the same name *)












(** *** Names and expiry *)

Lemma append_same_prefix (p a b : string) : p +:+ a = p +:+ b -> a = b.
Proof.
  induction p as [|c p IH]; [done|].
  change (String c p +:+ a) with (String c (p +:+ a)).
  change (String c p +:+ b) with (String c (p +:+ b)).
  intros H. injection H as H. now apply IH.
Qed.

Lemma occurs_append (c : ascii) (x y : string) :
  occurs c (x +:+ y) = occurs c x || occurs c y.
Proof.
  induction x as [|d x IH]; [reflexivity|].
  change (occurs c (String d x +:+ y))
    with (Ascii.eqb c d || occurs c (x +:+ y)).
  rewrite IH. cbn [occurs]. now rewrite orb_assoc.
Qed.

Lemma concat_slash_cons (x y : string) (l : list string) :
  String.concat "/" (x :: y :: l)
  = x +:+ String "/"%char (String.concat "/" (y :: l)).
Proof. reflexivity. Qed.

Lemma slash_split_unique (x y r1 r2 : string) :
  slash_free x -> slash_free y ->
  x +:+ String "/"%char r1 = y +:+ String "/"%char r2 ->
  x = y /\ r1 = r2.
Proof.
  unfold slash_free. revert y.
  induction x as [|c x IH]; intros [|d y] Hx Hy H;
    repeat match type of H with
           | context [String ?a ?u +:+ ?v] =>
             change (String a u +:+ v) with (String a (u +:+ v)) in H
           | context [EmptyString +:+ ?v] =>
             change (EmptyString +:+ v) with v in H
           end.
  - injection H as ->. done.
  - injection H as <- _. cbn in Hy. discriminate.
  - injection H as -> _. cbn in Hx. discriminate.
  - injection H as -> H. cbn [occurs] in Hx, Hy.
    apply orb_false_elim in Hx as [_ Hx]. apply orb_false_elim in Hy as [_ Hy].
    destruct (IH y Hx Hy H) as [-> ->]. done.
Qed.

Lemma slash_free_no_split (x y r : string) :
  slash_free x -> x <> y +:+ String "/"%char r.
Proof.
  unfold slash_free. intros Hx ->. rewrite occurs_append in Hx.
  cbn [occurs] in Hx. rewrite Ascii.eqb_refl in Hx.
  cbn in Hx. now rewrite orb_true_r in Hx.
Qed.

Lemma concat_slash_inj (l1 : list string) :
  forall l2,
    l1 <> [] -> l2 <> [] ->
    Forall slash_free l1 -> Forall slash_free l2 ->
    String.concat "/" l1 = String.concat "/" l2 -> l1 = l2.
Proof.
  induction l1 as [|x [|x2 l1] IH]; intros [|y [|y2 l2]] H1 H2 F1 F2 H;
    try done.
  - cbn in H. now subst.
  - rewrite concat_slash_cons in H.
    change (String.concat "/" [x]) with x in H.
    inversion F1 as [|? ? Hx _]. now apply (slash_free_no_split _ _ _ Hx) in H.
  - rewrite concat_slash_cons in H.
    change (String.concat "/" [y]) with y in H.
    inversion F2 as [|? ? Hy _]. symmetry in H.
    now apply (slash_free_no_split _ _ _ Hy) in H.
  - rewrite !concat_slash_cons in H.
    inversion F1 as [|? ? Hx F1']. inversion F2 as [|? ? Hy F2'].
    destruct (slash_split_unique _ _ _ _ Hx Hy H) as [-> Hrest].
    f_equal. now apply IH.
Qed.

(** Scope lists that are not empty and whose names have no [/] get the
    same cache name only when they are the same list, order included. *)
Theorem cache_key_injective (scopes1 scopes2 : list string) :
  scopes1 <> [] -> scopes2 <> [] ->
  Forall slash_free scopes1 -> Forall slash_free scopes2 ->
  cache_key scopes1 = cache_key scopes2 -> scopes1 = scopes2.
Proof.
  intros H1 H2 F1 F2 H. unfold cache_key in H.
  apply append_same_prefix in H. now apply concat_slash_inj.
Qed.

Lemma cache_key_injective_witness :
  ["data:read"; "data:write"] <> []
  /\ ["data:write"; "data:read"] <> []
  /\ Forall slash_free ["data:read"; "data:write"]
  /\ Forall slash_free ["data:write"; "data:read"]
  /\ cache_key ["data:read"; "data:write"]
     <> cache_key ["data:write"; "data:read"].
Proof.
  assert (H1 : ["data:read"; "data:write"] <> @nil string) by discriminate.
  assert (H2 : ["data:write"; "data:read"] <> @nil string) by discriminate.
  assert (F1 : Forall slash_free ["data:read"; "data:write"])
    by (repeat constructor).
  assert (F2 : Forall slash_free ["data:write"; "data:read"])
    by (repeat constructor).
  repeat (split; [assumption|]).
  intros H.
  discriminate (cache_key_injective _ _ H1 H2 F1 F2 H).
Defined.



(** The later the callback of a returned promise runs, the smaller the
    [expires_in] it reports, the token being the same. *)
Theorem expires_in_never_grows
  (this : AuthenticationClient) (p : TokenPromise) (ta tb : Z)
  (first : ITwoLeggedToken) :
  ta <= tb ->
  settle this p ta = Resolves first ->
  exists second,
    settle this p tb = Resolves second
    /\ access_token second = access_token first
    /\ expires_in second <= expires_in first.
Proof.
  intros Hab. unfold settle.
  destruct (objects this !! cache_of p) as [cache|]; [|discriminate].
  destruct (promise cache) as [k|token|err]; try discriminate.
  intros H. injection H as <-. eexists. split; [reflexivity|].
  cbn [access_token expires_in]. split; [reflexivity|].
  apply Z.div_le_mono; lia.
Qed.

Lemma expires_in_never_grows_witness :
  let this := new "id" "secret" None in
  let c1 := fst (authenticate this ["data:read"] false 0) in
  let c2 := respond c1 0
              (Ok {| data_access_token := "tok"; data_expires_in := 60 |}) 5 in
  let first := {| access_token := "tok"; expires_in := 59 |} in
  1000 <= 30000
  /\ settle c2 (ThenOf 0) 1000 = Resolves first
  /\ exists second,
       settle c2 (ThenOf 0) 30000 = Resolves second
       /\ access_token second = "tok" /\ expires_in second <= 59.
Proof.
  cbn zeta.
  assert (Hab : 1000 <= 30000) by lia.
  split; [exact Hab|]. split; [reflexivity|].
  refine (expires_in_never_grows _ (ThenOf 0) 1000 30000
            {| access_token := "tok"; expires_in := 59 |} Hab _).
  reflexivity.
Defined.



(** A call writes to no cache object that was there before it, a forced
    call included: each keeps its expiry and its promise.  Nor does it
    touch the entry of any other name.  All it may do is add one object
    at the end and put it under its own name. *)
Theorem authenticate_keeps_cache_objects
  (this : AuthenticationClient) (scopes : list string) (force : bool)
  (now : Z) :
  let c := fst (authenticate this scopes force now) in
  (forall r cache, objects this !! r = Some cache ->
                   objects c !! r = Some cache)
  /\ (forall k, k <> cache_key scopes -> _cached c !! k = _cached this !! k)
  /\ (forall r, _cached c !! cache_key scopes = Some r ->
                 _cached this !! cache_key scopes = Some r
                 \/ r = length (objects this))
  /\ (length (objects c) <= S (length (objects this)))%nat.
Proof.
  cbn zeta.
  destruct (cached_hit this (cache_key scopes) force now) as [hit|] eqn:Hhit.
  - rewrite (authenticate_hit _ _ _ _ _ Hhit). cbn [fst].
    repeat split; try done; [now left | lia].
  - rewrite (authenticate_miss _ _ _ _ Hhit). cbn [fst objects _cached].
    split; [|split; [|split]].
    + intros r cache Hr.
      rewrite lookup_app_l; [done|]. now apply lookup_lt_Some in Hr.
    + intros k Hk. now rewrite lookup_insert_ne.
    + intros r. rewrite lookup_insert_eq. intros [= <-]. now right.
    + rewrite length_app. cbn. lia.
Qed.

(** Once the token has expired an unforced call sends a new request and
    puts a new object under the name; the object of the expired token is
    not touched, so promises handed out for it still resolve to the old
    token. *)
Theorem expired_entry_is_replaced
  (this : AuthenticationClient) (scopes : list string) (data : TokenData)
  (t1 t2 t3 ta : Z) :
  cached_hit this (cache_key scopes) false t1 = None ->
  t2 + data_expires_in data * 1000 <= t3 ->
  let c1 := fst (authenticate this scopes false t1) in
  let p1 := snd (authenticate this scopes false t1) in
  let c2 := respond c1 (cache_of p1) (Ok data) t2 in
  let c3 := fst (authenticate c2 scopes false t3) in
  let p3 := snd (authenticate c2 scopes false t3) in
  posts c3
  = posts c2
    ++ [(host this +:+ "/" +:+ RootPath +:+ "/" +:+ "authenticate",
         authenticate_params this scopes)]
  /\ cache_of p3 = S (cache_of p1)
  /\ _cached c3 !! cache_key scopes = Some (cache_of p3)
  /\ settle c3 p3 ta = StillPending
  /\ settle c3 p1 ta
     = Resolves {| access_token := data_access_token data;
                   expires_in :=
                     (t2 + data_expires_in data * 1000 - ta) / 1000 |}.
Proof.
  intros Hmiss Hlate. cbn zeta.
  destruct (after_miss this scopes false t1 Hmiss) as (Hp & Hk & Ho & _).
  cbn zeta in Hp, Hk, Ho. rewrite Hp. cbn [cache_of].
  assert (Hlen1 : length (objects (fst (authenticate this scopes false t1)))
                  = S (length (objects this))).
  { rewrite (authenticate_miss _ _ _ _ Hmiss). cbn [fst objects].
    rewrite length_app. cbn. lia. }
  assert (Hid : host (fst (authenticate this scopes false t1)) = host this
                /\ authenticate_params
                     (fst (authenticate this scopes false t1)) scopes
                   = authenticate_params this scopes).
  { now rewrite (authenticate_miss _ _ _ _ Hmiss). }
  set (c1 := fst (authenticate this scopes false t1)) in *.
  destruct (respond_ok_own c1 _ _ _ data t2 Hk Ho) as (Hobj & Hc & Hposts).
  assert (Hshape : respond c1 (length (objects this)) (Ok data) t2
                   = with_objects c1
                       (objects (respond c1 (length (objects this))
                                   (Ok data) t2))).
  { unfold respond. rewrite Ho. cbn [promise]. now rewrite Hk. }
  assert (Hlen2 : length (objects (respond c1 (length (objects this))
                                     (Ok data) t2))
                  = S (length (objects this))).
  { unfold respond. rewrite Ho. cbn [promise]. rewrite Hk.
    cbn [with_objects objects]. now rewrite !length_alter. }
  set (c2 := respond c1 _ _ t2) in *.
  assert (Hexp : cached_hit c2 (cache_key scopes) false t3 = None).
  { unfold cached_hit. cbn [negb]. rewrite Hc, Hk, Hobj. cbn [expires_at].
    rewrite Z.gtb_ltb.
    now replace (t3 <? _) with false by (symmetry; apply Z.ltb_ge; lia). }
  rewrite (authenticate_miss _ _ _ _ Hexp).
  cbn [fst snd cache_of _cached objects posts]. rewrite Hlen2.
  destruct Hid as [Hh Hpar].
  split.
  { rewrite Hshape. cbn [with_objects host client_id client_secret].
    unfold authenticate_params. cbn [with_objects client_id client_secret].
    unfold authenticate_params in Hpar. now rewrite Hh, Hpar. }
  split; [reflexivity|]. split; [apply lookup_insert_eq|].
  unfold settle. cbn [cache_of objects]. split.
  - rewrite lookup_app_r by lia. rewrite Hlen2, Nat.sub_diag. reflexivity.
  - rewrite lookup_app_l by lia. now rewrite Hobj.
Qed.

Lemma expired_entry_is_replaced_witness :
  let this := new "id" "secret" None in
  let data := {| data_access_token := "tok"; data_expires_in := 60 |} in
  let c1 := fst (authenticate this ["data:read"] false 0) in
  let c2 := respond c1 0 (Ok data) 5 in
  cached_hit this (cache_key ["data:read"]) false 0 = None
  /\ 5 + data_expires_in data * 1000 <= 60005
  /\ snd (authenticate c2 ["data:read"] false 60005) = ThenOf 1.
Proof.
  cbn zeta.
  assert (Hmiss : cached_hit (new "id" "secret" None)
                    (cache_key ["data:read"]) false 0 = None)
    by reflexivity.
  assert (Hlate : 5 + data_expires_in
                        {| data_access_token := "tok";
                           data_expires_in := 60 |} * 1000 <= 60005)
    by (cbn; lia).
  split; [exact Hmiss|]. split; [exact Hlate|].
  pose proof (expired_entry_is_replaced (new "id" "secret" None)
                ["data:read"]
                {| data_access_token := "tok"; data_expires_in := 60 |}
                0 5 60005 0 Hmiss Hlate) as (_ & H & _).
  cbn zeta in H.
  destruct (snd (authenticate _ ["data:read"] false 60005)) as [r] eqn:E.
  cbn [cache_of] in H. now rewrite H.
Defined.

Lemma pending_owned_step this ev :
  unforced ev -> pending_owned this -> pending_owned (step this ev).
Proof.
  intros Hev Hinv. destruct ev as [scopes force now | r resp now]; cbn [step].
  - destruct Hev as [-> Hnow].
    destruct (cached_hit this (cache_key scopes) false now) as [hit|] eqn:Hhit.
    { now rewrite (authenticate_hit _ _ _ _ _ Hhit). }
    rewrite (authenticate_miss _ _ _ _ Hhit). cbn [fst].
    intros r c k Hr Hc. cbn [_cached objects] in *.
    destruct (decide (r < length (objects this))%nat) as [Hlt|Hge].
    + rewrite lookup_app_l in Hr by done.
      destruct (Hinv r c k Hr Hc) as [Hk Hmax]. split; [|exact Hmax].
      destruct (decide (cache_key scopes = k)) as [<-|Hne];
        [|now rewrite lookup_insert_ne].
      exfalso. destruct c as [e pr]. cbn in Hc, Hmax. subst e pr.
      rewrite (sentinel_hit _ _ _ _ _ Hk Hr Hnow) in Hhit. discriminate.
    + pose proof (lookup_lt_Some _ _ _ Hr) as Hr'.
      rewrite length_app in Hr'. cbn in Hr'.
      assert (r = length (objects this)) as -> by lia.
      rewrite lookup_app_r, Nat.sub_diag in Hr by lia.
      injection Hr as <-. cbn in Hc. injection Hc as <-.
      split; [apply lookup_insert_eq|reflexivity].
  - unfold respond.
    destruct (objects this !! r) as [cache|] eqn:Hr; [|done].
    destruct (promise cache) as [k| |] eqn:Hp; [|done|done].
    destruct (Hinv r cache k Hr Hp) as [Hk Hmax].
    assert (Hrest : forall pr' f,
               (forall k', pr' <> Pending k') ->
               pending_owned
                 (with_objects this
                    (alter (set_promise pr') r (alter f r (objects this))))).
    { intros pr' f Hpr' r' c' k' Hr' Hc'.
      cbn [with_objects _cached objects] in *.
      destruct (decide (r = r')) as [<-|Hne].
      - rewrite list_lookup_alter_eq, list_lookup_alter_eq, Hr in Hr'.
        cbn in Hr'. injection Hr' as <-. cbn in Hc'. now apply Hpr' in Hc'.
      - rewrite !list_lookup_alter_ne in Hr' by done.
        now apply (Hinv r' c' k'). }
    destruct resp as [data|err].
    + rewrite Hk. apply Hrest. discriminate.
    + rewrite <- (list_alter_id id (objects this) r) at 1 by done.
      apply Hrest. discriminate.
Qed.

(** The spec's data-model invariant, for a client on which no call is
    ever forced: at any moment at most one token request per name is
    unanswered, and it is the one whose object is under that name. *)
Theorem unforced_run_one_in_flight
  (id secret : string) (host : option string) (evs : list Event) :
  Forall unforced evs ->
  let c := run (new id secret host) evs in
  forall r1 r2 c1 c2 k,
    objects c !! r1 = Some c1 -> promise c1 = Pending k ->
    objects c !! r2 = Some c2 -> promise c2 = Pending k ->
    r1 = r2 /\ _cached c !! k = Some r1.
Proof.
  intros Hevs. cbn zeta.
  assert (Hinv : pending_owned (run (new id secret host) evs)).
  { assert (H0 : pending_owned (new id secret host)).
    { intros r c k Hr. destruct r; discriminate Hr. }
    revert H0. generalize (new id secret host) as this.
    induction Hevs as [|ev evs Hev _ IH]; intros this H0; [exact H0|].
    cbn [run fold_left]. apply IH. now apply pending_owned_step. }
  intros r1 r2 c1 c2 k H1 P1 H2 P2.
  destruct (Hinv r1 c1 k H1 P1) as [K1 _].
  destruct (Hinv r2 c2 k H2 P2) as [K2 _].
  split; [congruence|exact K1].
Qed.

Lemma unforced_run_one_in_flight_witness :
  let evs := [ Call ["data:read"] false 0;
               Call ["data:read"] false 1;
               Call ["data:write"] false 2;
               Reply 0 (Failure "503") 3;
               Call ["data:read"] false 4 ] in
  let c := run (new "id" "secret" None) evs in
  Forall unforced evs
  /\ length (posts c) = 2%nat
  /\ forall r cache,
       objects c !! r = Some cache ->
       promise cache = Pending (cache_key ["data:write"]) -> r = 1%nat.
Proof.
  cbn zeta.
  assert (Hevs : Forall unforced
                   [ Call ["data:read"] false 0;
                     Call ["data:read"] false 1;
                     Call ["data:write"] false 2;
                     Reply 0 (Failure "503") 3;
                     Call ["data:read"] false 4 ]).
  { repeat constructor; unfold clock_reading; lia. }
  split; [exact Hevs|]. split; [reflexivity|].
  intros r cache Hr Hp.
  exact (proj1 (unforced_run_one_in_flight "id" "secret" None _ Hevs
                  r 1%nat cache
                  {| expires_at := MAX_VALUE;
                     promise := Pending (cache_key ["data:write"]) |}
                  (cache_key ["data:write"]) Hr Hp eq_refl eq_refl)).
Defined.

(** The continuation of a token request writes the expiry into whatever
    object is under the name when its answer comes.  So when a forced
    call has replaced the entry of a request still unanswered, that
    request's own object keeps [Number.MAX_VALUE] for good, and its
    answer dates the newer entry instead, even one whose own request has
    failed: until that date unforced calls get the failure from the
    cache, from then on they find no usable entry. *)
Theorem late_answer_dates_newer_entry
  (this : AuthenticationClient) (scopes : list string)
  (data : TokenData) (err : string) (t0 t1 t2 t3 : Z) :
  cached_hit this (cache_key scopes) false t0 = None ->
  let c1 := fst (authenticate this scopes false t0) in
  let p0 := snd (authenticate this scopes false t0) in
  let c2 := fst (authenticate c1 scopes true t1) in
  let p1 := snd (authenticate c1 scopes true t1) in
  let c3 := respond c2 (cache_of p1) (Failure err) t2 in
  let c4 := respond c3 (cache_of p0) (Ok data) t3 in
  let expiry := t3 + data_expires_in data * 1000 in
  objects c4 !! cache_of p1
  = Some {| expires_at := expiry; promise := Rejected err |}
  /\ objects c4 !! cache_of p0
     = Some {| expires_at := MAX_VALUE;
               promise := Fulfilled (data_access_token data) |}
  /\ (forall ta, settle c4 p1 ta = Rejects err)
  /\ (forall t, t < expiry -> authenticate c4 scopes false t = (c4, p1))
  /\ (forall t, expiry <= t ->
                cached_hit c4 (cache_key scopes) false t = None).
Proof.
  intros Hmiss. cbn zeta.
  destruct (after_miss this scopes false t0 Hmiss) as (Hp0 & Hk1 & Ho1 & _).
  cbn zeta in Hp0, Hk1, Ho1. rewrite Hp0. cbn [cache_of].
  assert (Hlen1 : length (objects (fst (authenticate this scopes false t0)))
                  = S (length (objects this))).
  { rewrite (authenticate_miss _ _ _ _ Hmiss). cbn [fst objects].
    rewrite length_app. cbn. lia. }
  set (r0 := length (objects this)) in *.
  set (c1 := fst (authenticate this scopes false t0)) in *.
  destruct (after_miss c1 scopes true t1 (cached_hit_forced _ _ _))
    as (Hp1 & Hk2 & Ho2 & _).
  cbn zeta in Hp1, Hk2, Ho2. rewrite Hp1. cbn [cache_of].
  assert (Ho2' : objects (fst (authenticate c1 scopes true t1)) !! r0
                 = Some {| expires_at := MAX_VALUE;
                           promise := Pending (cache_key scopes) |}).
  { rewrite (authenticate_miss _ _ _ _ (cached_hit_forced _ _ _)).
    cbn [fst objects]. rewrite lookup_app_l by lia. exact Ho1. }
  rewrite Hlen1 in *.
  set (c2 := fst (authenticate c1 scopes true t1)) in *.
  destruct (respond_failure_own c2 _ _ _ err t2 Ho2)
    as (Ho3 & Hc3 & _ & _ & Hrest3).
  set (c3 := respond c2 (S r0) (Failure err) t2) in *.
  assert (Ho3' : objects c3 !! r0
                 = Some {| expires_at := MAX_VALUE;
                           promise := Pending (cache_key scopes) |}).
  { rewrite Hrest3 by lia. exact Ho2'. }
  assert (Hk3 : _cached c3 !! cache_key scopes = Some (S r0))
    by now rewrite Hc3.
  assert (Hshape : respond c3 r0 (Ok data) t3
                   = with_objects c3
                       (alter (set_promise (Fulfilled (data_access_token data)))
                          r0
                          (alter (set_expires_at
                                    (t3 + data_expires_in data * 1000))
                             (S r0) (objects c3)))).
  { unfold respond. rewrite Ho3'. cbn [promise]. now rewrite Hk3. }
  rewrite Hshape.
  set (c4 := with_objects c3 _).
  assert (H1 : objects c4 !! S r0
               = Some {| expires_at := t3 + data_expires_in data * 1000;
                         promise := Rejected err |}).
  { subst c4. cbn [with_objects objects].
    rewrite list_lookup_alter_ne by lia.
    now rewrite list_lookup_alter_eq, Ho3. }
  assert (H0 : objects c4 !! r0
               = Some {| expires_at := MAX_VALUE;
                         promise := Fulfilled (data_access_token data) |}).
  { subst c4. cbn [with_objects objects].
    rewrite list_lookup_alter_eq, list_lookup_alter_ne by lia.
    now rewrite Ho3'. }
  assert (Hk4 : _cached c4 !! cache_key scopes = Some (S r0)) by exact Hk3.
  split; [exact H1|]. split; [exact H0|].
  split; [intros ta; unfold settle; cbn [cache_of]; now rewrite H1|].
  split.
  - intros t Ht. apply authenticate_hit. unfold cached_hit. cbn [negb].
    rewrite Hk4, H1. cbn [expires_at].
    now replace (_ >? t) with true by (symmetry; apply Z.gtb_lt; lia).
  - intros t Ht. unfold cached_hit. cbn [negb].
    rewrite Hk4, H1. cbn [expires_at]. rewrite Z.gtb_ltb.
    now replace (t <? _) with false by (symmetry; apply Z.ltb_ge; lia).
Qed.

Lemma late_answer_dates_newer_entry_witness :
  let this := new "id" "secret" None in
  let data := {| data_access_token := "tok"; data_expires_in := 60 |} in
  let c1 := fst (authenticate this ["data:read"] false 0) in
  let c2 := fst (authenticate c1 ["data:read"] true 1) in
  let c4 := respond (respond c2 1 (Failure "503") 2) 0 (Ok data) 3 in
  cached_hit this (cache_key ["data:read"]) false 0 = None
  /\ settle c4 (ThenOf 1) 70000 = Rejects "503"
  /\ cached_hit c4 (cache_key ["data:read"]) false 70000 = None.
Proof.
  cbn zeta.
  assert (Hmiss : cached_hit (new "id" "secret" None)
                    (cache_key ["data:read"]) false 0 = None)
    by reflexivity.
  split; [exact Hmiss|].
  pose proof (late_answer_dates_newer_entry (new "id" "secret" None)
                ["data:read"]
                {| data_access_token := "tok"; data_expires_in := 60 |}
                "503" 0 1 2 3 Hmiss) as (_ & _ & H1 & _ & H2).
  split; [exact (H1 70000)|].
  apply H2. cbn. lia.
Defined.

End AuthenticationMore.

(** ** Credentials and the polling [get] *)

Section ForgeFacts.
Import Forge.

Lemma assign_credentials_mode auth0 token0 auth host :
  match assign_credentials auth0 token0 auth host with
  | inl e =>
    supplies_mode auth = false
    /\ e = Error "Authentication parameters missing or incorrect."
  | inr _ => supplies_mode auth = true
  end.
Proof.
  destruct auth as [[id|] [secret|] [tok|]]; cbn; auto.
Qed.

(** C9. Constructing a client, or resetting one, with an
    authentication object that has neither the [client_id] and
    [client_secret] pair nor a [token] throws
    ["Authentication parameters missing or incorrect."] and does nothing
    else; with either mode supplied neither throws, and the authenticator
    a client is given has sent no request.  A [reset] without an
    authentication object does not throw. *)
Theorem credentials_required
  (root : string) (auth : IAuthOptions) (host : option string)
  (region : option Region) (this : ForgeClient) :
  match new root auth host region with
  | inl e =>
    supplies_mode auth = false
    /\ e = Error "Authentication parameters missing or incorrect."
  | inr c =>
    supplies_mode auth = true
    /\ forall a, Forge.auth c = Some a -> Authentication.posts a = []
  end
  /\ match reset this (Some auth) host region with
     | inl e =>
       supplies_mode auth = false
       /\ e = Error "Authentication parameters missing or incorrect."
     | inr c => supplies_mode auth = true
     end
  /\ exists c, reset this None host region = inr c.
Proof.
  split; [|split].
  - unfold new.
    pose proof (assign_credentials_mode None None auth host) as H.
    destruct (assign_credentials None None auth host) as [e|[a t]] eqn:E;
      [exact H|]. split; [exact H|].
    cbn [Forge.auth]. intros a' ->.
    unfold assign_credentials in E.
    destruct (opt_client_id auth), (opt_client_secret auth), (opt_token auth);
      inversion E; reflexivity.
  - unfold reset.
    pose proof (assign_credentials_mode (Forge.auth this) (token this)
                  auth host) as H.
    now destruct (assign_credentials _ _ auth host) as [e|[a t]].
  - unfold reset. eauto.
Qed.

(** At construction exactly one of [auth] and [token] is set. *)
Lemma new_one_mode root auth host region c :
  new root auth host region = inr c ->
  (is_Some (Forge.auth c) /\ token c = None)
  \/ (Forge.auth c = None /\ is_Some (token c)).
Proof.
  unfold new, assign_credentials.
  destruct (opt_client_id auth), (opt_client_secret auth), (opt_token auth);
    intros H; inversion H; cbn; eauto.
Qed.

(** C6, as the code has it.  A client built with a client id and secret
    and then reset with an authentication object that has only a [token]
    keeps its authenticator beside the new token, and
    [setAuthorization] goes on asking the authenticator: it sends a token
    request and waits for it, and the header it sets carries the token of
    the answer, not the token given to [reset]. *)
Theorem reset_to_token_keeps_authenticator
  (root id secret tok : string) (host : option string)
  (region : option Region) (scopes : list string) (now : Z) :
  let credentials :=
    {| opt_client_id := Some id; opt_client_secret := Some secret;
       opt_token := None |} in
  let token_only :=
    {| opt_client_id := None; opt_client_secret := None;
       opt_token := Some tok |} in
  exists c0 c1 c2,
    new root credentials host region = inr c0
    /\ reset c0 (Some token_only) None None = inr c1
    /\ Forge.auth c1 = Some (Authentication.new id secret host)
    /\ token c1 = Some tok
    /\ setAuthorization c1 scopes now
       = (c2, AfterToken (Authentication.ThenOf 0))
    /\ (exists a2,
          Forge.auth c2 = Some a2
          /\ Authentication.posts a2
             = [(Authentication.host (Authentication.new id secret host)
                   +:+ "/" +:+ Authentication.RootPath +:+ "/"
                   +:+ "authenticate",
                 Authentication.authenticate_params
                   (Authentication.new id secret host) scopes)])
    /\ forall data t1 t2,
         authorization_header
           (token_response c2 0 (Authentication.Ok data) t1)
           (AfterToken (Authentication.ThenOf 0)) t2
         = Authentication.Resolves
             ("Bearer " +:+ Authentication.data_access_token data).
Proof.
  cbn zeta. unfold new, reset. cbn [assign_credentials opt_client_id
    opt_client_secret opt_token Forge.auth token].
  do 3 eexists. split; [reflexivity|]. split; [reflexivity|].
  split; [reflexivity|]. split; [reflexivity|].
  unfold setAuthorization. cbn [Forge.auth].
  rewrite (authenticate_miss (Authentication.new id secret host) scopes
             false now) by reflexivity.
  split; [reflexivity|]. split.
  { eexists. split; reflexivity. }
  intros data t1 t2.
  unfold token_response, authorization_header, with_auth. cbn [Forge.auth].
  match goal with
  | |- context [Authentication.respond ?a 0%nat _ _] =>
    destruct (respond_ok_own a (Authentication.cache_key scopes) 0%nat
                Authentication.MAX_VALUE data t1) as (Hobj & _)
  end.
  { cbn [Authentication._cached Authentication.new Authentication.objects
         length]. apply lookup_insert_eq. }
  { reflexivity. }
  unfold Authentication.settle. cbn [Authentication.cache_of].
  cbn zeta in Hobj. rewrite Hobj. reflexivity.
Qed.

(** The other direction works: a client built with a token and reset
    with a client id and secret asks the new authenticator. *)
Example reset_to_credentials_switches :
  exists c0 c1 c2 p,
    new "modelderivative/v2"
      {| opt_client_id := None; opt_client_secret := None;
         opt_token := Some "T" |} None None = inr c0
    /\ setAuthorization c0 ["data:read"] 0 = (c0, Immediately "Bearer T")
    /\ reset c0 (Some {| opt_client_id := Some "id";
                         opt_client_secret := Some "secret";
                         opt_token := None |}) None None = inr c1
    /\ setAuthorization c1 ["data:read"] 0 = (c2, AfterToken p).
Proof. do 4 eexists. repeat split; reflexivity. Qed.

(** C4, as the code has it.  Against a server answering 202, 202, 200,
    [get] with [repeatOn202] returns the body of the 200 after three
    requests; but each request leaves the moment the previous answer is
    in.  The two timers of 5000 ms that [sleep] starts are never waited
    for, so the time between two requests is the latency of the answer
    and nothing more. *)
Theorem get_202_202_200_no_delay
  (endpoint authorization b1 b2 b3 : string) (l1 l2 l3 : Z) (w : World) :
  let server :=
    [ {| latency := l1; response := {| status := 202; data := b1 |} |};
      {| latency := l2; response := {| status := 202; data := b2 |} |};
      {| latency := l3; response := {| status := 200; data := b3 |} |} ] in
  let w' := fst (get endpoint authorization true server w) in
  snd (get endpoint authorization true server w) = Returned b3
  /\ sent w'
     = sent w ++ [ (clock w, endpoint, authorization);
                   (clock w + l1, endpoint, authorization);
                   (clock w + l1 + l2, endpoint, authorization) ]
  /\ timers w'
     = timers w ++ [clock w + l1 + RetryDelay; clock w + l1 + l2 + RetryDelay]
  /\ clock w' = clock w + l1 + l2 + l3.
Proof.
  cbn zeta. unfold get. cbn [poll response status data].
  change (validateStatus 202) with true.
  change (validateStatus 200) with true.
  cbn [Z.eqb Pos.eqb andb fst snd exchange sleep clock sent timers latency].
  split; [reflexivity|]. split; [now rewrite <- !app_assoc|].
  split; [now rewrite <- !app_assoc|reflexivity].
Qed.

Example get_202_202_200_gaps :
  let server :=
    [ {| latency := 40; response := {| status := 202; data := "" |} |};
      {| latency := 40; response := {| status := 202; data := "" |} |};
      {| latency := 40; response := {| status := 200; data := "manifest" |} |} ] in
  let start := {| clock := 0; sent := []; timers := [] |} in
  get "designdata/dXJu/manifest" "Bearer T" true server start
  = ({| clock := 120;
        sent := [ (0, "designdata/dXJu/manifest", "Bearer T");
                  (40, "designdata/dXJu/manifest", "Bearer T");
                  (80, "designdata/dXJu/manifest", "Bearer T") ];
        timers := [5040; 5080] |},
     Returned "manifest")
  /\ 40 - 0 < RetryDelay /\ 80 - 40 < RetryDelay.
Proof. repeat split. Qed.

End ForgeFacts.

(** ** The polling loop in general, and the life of a client *)

Section ForgeMore.
Import Forge Vocabulary.

Lemma poll_done endpoint authorization repeat server resp w :
  (status resp =? 202) && repeat = false ->
  poll endpoint authorization repeat server resp w = (w, Returned (data resp)).
Proof. intros H. destruct server; cbn [poll]; now rewrite H. Qed.

Lemma says_202_valid (ex : Exchange) :
  says_202 ex -> validateStatus (status (response ex)) = true.
Proof. unfold says_202. now intros ->. Qed.

Lemma poll_through endpoint authorization (pending : list Exchange) :
  forall prev w final rest,
    Forall says_202 pending ->
    status prev = 202 ->
    status (response final) <> 202 ->
    let r := poll endpoint authorization true (pending ++ final :: rest)
               prev w in
    snd r = final_outcome final
    /\ length (sent (fst r)) = (length (sent w) + length pending + 1)%nat
    /\ length (timers (fst r)) = (length (timers w) + length pending + 1)%nat
    /\ clock (fst r) = clock w + total_latency pending + latency final.
Proof.
  induction pending as [|p ps IH]; intros prev w final rest Hall Hprev Hfin;
    cbn zeta; cbn [app poll]; rewrite Hprev; cbn [Z.eqb Pos.eqb andb].
  - unfold final_outcome.
    destruct (validateStatus (status (response final))).
    + rewrite poll_done
        by (apply andb_false_intro1; now apply Z.eqb_neq).
      cbn [fst snd exchange sleep sent timers clock total_latency fold_right].
      rewrite !length_app. cbn [length].
      repeat split; lia.
    + cbn [fst snd exchange sleep sent timers clock total_latency fold_right].
      rewrite !length_app. cbn [length].
      repeat split; lia.
  - inversion Hall as [|? ? Hp Hps]; subst.
    rewrite (says_202_valid p Hp).
    destruct (IH (response p)
                (exchange endpoint authorization p (sleep RetryDelay w))
                final rest Hps Hp Hfin) as (Hout & Hsent & Htimers & Hclock).
    cbn zeta in Hout, Hsent, Htimers, Hclock.
    split; [exact Hout|].
    cbn [exchange sleep sent timers clock] in Hsent, Htimers, Hclock.
    rewrite length_app in Hsent, Htimers. cbn [length] in *.
    cbn [total_latency fold_right]. fold (total_latency ps).
    repeat split; lia.
Qed.

(** With [repeatOn202] on, [get] asks again for every answer that says
    202 and stops at the first that does not: it returns that answer's
    body when its status is in 200..299 and throws otherwise, having sent
    one request per answer seen and none after, started one timer per
    202, and spent the latencies of the answers and no other time. *)
Theorem get_polls_until_other_status
  (endpoint authorization : string) (pending rest : list Exchange)
  (final : Exchange) (w : World) :
  Forall says_202 pending ->
  status (response final) <> 202 ->
  let r := get endpoint authorization true (pending ++ final :: rest) w in
  snd r = final_outcome final
  /\ length (sent (fst r)) = (length (sent w) + length pending + 1)%nat
  /\ length (timers (fst r)) = (length (timers w) + length pending)%nat
  /\ clock (fst r) = clock w + total_latency pending + latency final.
Proof.
  intros Hall Hfin. cbn zeta. unfold get.
  destruct pending as [|p ps]; cbn [app].
  - unfold final_outcome.
    destruct (validateStatus (status (response final))).
    + rewrite poll_done
        by (apply andb_false_intro1; now apply Z.eqb_neq).
      cbn [fst snd exchange sent timers clock total_latency fold_right].
      rewrite length_app. cbn [length]. repeat split; lia.
    + cbn [fst snd exchange sent timers clock total_latency fold_right].
      rewrite length_app. cbn [length]. repeat split; lia.
  - inversion Hall as [|? ? Hp Hps]; subst.
    rewrite (says_202_valid p Hp).
    destruct (poll_through endpoint authorization ps (response p)
                (exchange endpoint authorization p w) final rest Hps Hp Hfin)
      as (Hout & Hsent & Htimers & Hclock).
    cbn zeta in Hout, Hsent, Htimers, Hclock.
    split; [exact Hout|].
    cbn [exchange sent timers clock] in Hsent, Htimers, Hclock.
    rewrite length_app in Hsent. cbn [length] in *.
    cbn [total_latency fold_right]. fold (total_latency ps).
    repeat split; lia.
Qed.

Lemma get_polls_until_other_status_witness :
  let pending :=
    [ {| latency := 40; response := {| status := 202; data := "" |} |};
      {| latency := 30; response := {| status := 202; data := "" |} |} ] in
  let final :=
    {| latency := 20; response := {| status := 404; data := "gone" |} |} in
  let start := {| clock := 0; sent := []; timers := [] |} in
  Forall says_202 pending
  /\ status (response final) <> 202
  /\ snd (get "designdata/x/manifest" "Bearer T" true
            (pending ++ final :: [final]) start) = Threw 404.
Proof.
  cbn zeta.
  assert (Hall : Forall says_202
            [ {| latency := 40; response := {| status := 202; data := "" |} |};
              {| latency := 30; response := {| status := 202; data := "" |} |} ])
    by (repeat constructor).
  assert (Hfin : status (response
            {| latency := 20;
               response := {| status := 404; data := "gone" |} |}) <> 202)
    by (cbn; lia).
  split; [exact Hall|]. split; [exact Hfin|].
  exact (proj1 (get_polls_until_other_status "designdata/x/manifest"
                  "Bearer T" _ _ _
                  {| clock := 0; sent := []; timers := [] |} Hall Hfin)).
Defined.

Lemma poll_all_202 endpoint authorization (server : list Exchange) :
  forall prev w,
    Forall says_202 server -> status prev = 202 ->
    let r := poll endpoint authorization true server prev w in
    snd r = NeverSettles
    /\ length (sent (fst r)) = (length (sent w) + length server + 1)%nat.
Proof.
  induction server as [|p ps IH]; intros prev w Hall Hprev;
    cbn zeta; cbn [poll]; rewrite Hprev; cbn [Z.eqb Pos.eqb andb].
  - cbn [fst snd unanswered_request sleep sent]. rewrite length_app.
    cbn [length]. split; [reflexivity|lia].
  - inversion Hall as [|? ? Hp Hps]; subst.
    rewrite (says_202_valid p Hp).
    destruct (IH (response p)
                (exchange endpoint authorization p (sleep RetryDelay w))
                Hps Hp) as (Hout & Hsent).
    cbn zeta in Hout, Hsent. split; [exact Hout|].
    cbn [exchange sleep sent] in Hsent. rewrite length_app in Hsent.
    cbn [length] in *. lia.
Qed.

(** The poll has no bound: as long as every answer says 202, [get] with
    [repeatOn202] neither returns nor throws, and it has one more request
    out than answers received. *)
Theorem get_never_settles_while_202
  (endpoint authorization : string) (server : list Exchange) (w : World) :
  Forall says_202 server ->
  let r := get endpoint authorization true server w in
  snd r = NeverSettles
  /\ length (sent (fst r)) = (length (sent w) + length server + 1)%nat.
Proof.
  intros Hall. cbn zeta. unfold get. destruct server as [|p ps].
  - cbn [fst snd unanswered_request sent]. rewrite length_app.
    cbn [length]. split; [reflexivity|lia].
  - inversion Hall as [|? ? Hp Hps]; subst.
    rewrite (says_202_valid p Hp).
    destruct (poll_all_202 endpoint authorization ps (response p)
                (exchange endpoint authorization p w) Hps Hp)
      as (Hout & Hsent).
    cbn zeta in Hout, Hsent. split; [exact Hout|].
    cbn [exchange sent] in Hsent. rewrite length_app in Hsent.
    cbn [length] in *. lia.
Qed.

Lemma get_never_settles_while_202_witness :
  let server :=
    [ {| latency := 40; response := {| status := 202; data := "" |} |};
      {| latency := 30; response := {| status := 202; data := "" |} |} ] in
  let start := {| clock := 0; sent := []; timers := [] |} in
  Forall says_202 server
  /\ snd (get "designdata/x/manifest" "Bearer T" true server start)
     = NeverSettles.
Proof.
  cbn zeta.
  assert (Hall : Forall says_202
            [ {| latency := 40; response := {| status := 202; data := "" |} |};
              {| latency := 30; response := {| status := 202; data := "" |} |} ])
    by (repeat constructor).
  split; [exact Hall|].
  exact (proj1 (get_never_settles_while_202 "designdata/x/manifest"
                  "Bearer T" _
                  {| clock := 0; sent := []; timers := [] |} Hall)).
Defined.

(** Without [repeatOn202] the first answer ends the call whatever its
    status: one request, no timer, and a 202 answer's body is returned
    like any other. *)
Theorem get_without_repeat_takes_first_answer
  (endpoint authorization : string) (ex : Exchange) (rest : list Exchange)
  (w : World) :
  get endpoint authorization false (ex :: rest) w
  = (exchange endpoint authorization ex w, final_outcome ex).
Proof.
  unfold get, final_outcome.
  destruct (validateStatus (status (response ex))); [|reflexivity].
  apply poll_done. apply andb_false_r.
Qed.

Lemma host_or_default_not_empty (h : option string) :
  host_or_default h <> "".
Proof.
  destruct h as [h|]; cbn [host_or_default]; [|discriminate].
  destruct (String.eqb_spec h ""); [discriminate|done].
Qed.

(** The base URL of the HTTP client is always [host + '/' + root + '/']
    with a [host] that is not empty: the constructor sets it so and
    [reset] keeps it so, leaving [root] alone. *)
Theorem client_stays_coherent
  (root : string) (auth : IAuthOptions) (auth' : option IAuthOptions)
  (host host' : option string) (region region' : option Region) :
  (forall c, new root auth host region = inr c ->
             coherent c /\ Forge.root c = root)
  /\ (forall this c, coherent this ->
                     reset this auth' host' region' = inr c ->
                     coherent c /\ Forge.root c = Forge.root this).
Proof.
  split.
  - intros c. unfold new.
    destruct (assign_credentials None None auth host) as [e|[a t]];
      [discriminate|].
    intros H. injection H as <-. unfold coherent. cbn.
    split; [split; [reflexivity|apply host_or_default_not_empty]|reflexivity].
  - intros this c [Hurl Hhost]. unfold reset.
    destruct (match auth' with
              | Some a => assign_credentials (Forge.auth this) (token this)
                            a host'
              | None => inr (Forge.auth this, token this)
              end) as [e|[a t]]; [discriminate|].
    intros H. injection H as <-. unfold coherent. cbn.
    split; [split; [reflexivity|]|reflexivity].
    destruct host'; [apply host_or_default_not_empty|exact Hhost].
Qed.

(** [reset] with a host and no authentication object moves the client
    to the new host and keeps the authenticator it had, cache and host
    included: token requests go on to the host the authenticator was
    built with.  Passing a client id and secret along builds a new
    authenticator for the host given. *)
Theorem reset_host_alone_keeps_authenticator
  (this : ForgeClient) (a : Authentication.AuthenticationClient)
  (h id secret : string) (tok : option string) (region : option Region) :
  Forge.auth this = Some a ->
  (exists c, reset this None (Some h) region = inr c
             /\ Forge.host c = host_or_default (Some h)
             /\ Forge.auth c = Some a)
  /\ (exists c, reset this
                  (Some {| opt_client_id := Some id;
                           opt_client_secret := Some secret;
                           opt_token := tok |})
                  (Some h) region = inr c
                /\ Forge.host c = host_or_default (Some h)
                /\ Forge.auth c
                   = Some (Authentication.new id secret (Some h))).
Proof.
  intros Ha. split; eexists; unfold reset;
    cbn [assign_credentials opt_client_id opt_client_secret opt_token];
    (split; [reflexivity|]); cbn [Forge.host Forge.auth]; now split.
Qed.

Lemma reset_host_alone_keeps_authenticator_witness :
  let a := Authentication.new "id" "secret" (Some "https://old.example") in
  let this :=
    {| auth := Some a; token := None; root := "modelderivative/v2";
       host := "https://old.example"; region := US;
       axios := {| baseURL := "https://old.example/modelderivative/v2/";
                   maxContentLength := None; maxBodyLength := None |} |} in
  Forge.auth this = Some a
  /\ exists c, reset this None (Some "https://new.example") None = inr c
               /\ Forge.host c = "https://new.example"
               /\ (Authentication.host <$> Forge.auth c)
                  = Some "https://old.example".
Proof.
  cbn zeta. split; [reflexivity|].
  destruct (proj1 (reset_host_alone_keeps_authenticator
                     {| auth := Some (Authentication.new "id" "secret"
                                        (Some "https://old.example"));
                        token := None; root := "modelderivative/v2";
                        host := "https://old.example"; region := US;
                        axios := {| baseURL :=
                                      "https://old.example/modelderivative/v2/";
                                    maxContentLength := None;
                                    maxBodyLength := None |} |}
                     _ "https://new.example" "id" "secret" None None eq_refl))
    as (c & Hc & Hh & Ha).
  exists c. split; [exact Hc|]. split; [exact Hh|]. now rewrite Ha.
Defined.

(** [reset] with a client id and secret, whether or not a token comes
    with them, starts from an empty token cache: the next
    [setAuthorization] sends a token request whatever the client had
    cached before. *)
Theorem reset_with_credentials_forgets_tokens
  (this : ForgeClient) (id secret : string) (tok host : option string)
  (region : option Region) (scopes : list string) (now : Z) :
  exists c c',
    reset this
      (Some {| opt_client_id := Some id; opt_client_secret := Some secret;
               opt_token := tok |}) host region = inr c
    /\ setAuthorization c scopes now
       = (c', AfterToken (Authentication.ThenOf 0))
    /\ (Authentication.posts <$> Forge.auth c')
       = Some [(Authentication.host (Authentication.new id secret host)
                  +:+ "/" +:+ Authentication.RootPath +:+ "/"
                  +:+ "authenticate",
                Authentication.authenticate_params
                  (Authentication.new id secret host) scopes)].
Proof.
  do 2 eexists. unfold reset.
  cbn [assign_credentials opt_client_id opt_client_secret opt_token].
  split; [reflexivity|].
  unfold setAuthorization. cbn [Forge.auth].
  rewrite (authenticate_miss (Authentication.new id secret host) scopes
             false now) by reflexivity.
  split; reflexivity.
Qed.

(** A client built with a token only never goes to the token endpoint:
    [setAuthorization] sets [Bearer <token>] at once and leaves the
    client as it is; after [reset] with another token it sets that
    one. *)
Theorem static_token_client_uses_its_token
  (root tok tok' : string) (id : option string) (host : option string)
  (region : option Region) (scopes : list string) (now : Z) :
  let token_only t :=
    {| opt_client_id := id; opt_client_secret := None; opt_token := Some t |} in
  exists c c1,
    new root (token_only tok) host region = inr c
    /\ setAuthorization c scopes now = (c, Immediately ("Bearer " +:+ tok))
    /\ reset c (Some (token_only tok')) None None = inr c1
    /\ setAuthorization c1 scopes now
       = (c1, Immediately ("Bearer " +:+ tok')).
Proof.
  cbn zeta. do 2 eexists. unfold new, reset.
  destruct id; cbn [assign_credentials opt_client_id opt_client_secret
                    opt_token Forge.auth token];
    (split; [reflexivity|]); (split; [reflexivity|]);
    (split; [reflexivity|]); reflexivity.
Qed.

(** Two requests of a client with credentials, the second prepared
    before the token for the first has come, wait for the same token
    request. *)
Theorem setAuthorization_shares_token_request
  (this : ForgeClient) (a : Authentication.AuthenticationClient)
  (scopes : list string) (t1 t2 : Z) :
  Forge.auth this = Some a ->
  Authentication.cached_hit a (Authentication.cache_key scopes) false t1
  = None ->
  Authentication.clock_reading t2 ->
  let c1 := fst (setAuthorization this scopes t1) in
  setAuthorization c1 scopes t2 = (c1, snd (setAuthorization this scopes t1))
  /\ (Authentication.posts <$> Forge.auth c1)
     = Some (Authentication.posts a
             ++ [(Authentication.host a +:+ "/" +:+ Authentication.RootPath
                    +:+ "/" +:+ "authenticate",
                  Authentication.authenticate_params a scopes)]).
Proof.
  intros Ha Hmiss Ht2. cbn zeta. unfold setAuthorization. rewrite Ha.
  destruct (after_miss a scopes false t1 Hmiss) as (Hp & Hk & Ho & Hposts).
  cbn zeta in Hp, Hk, Ho, Hposts.
  destruct (Authentication.authenticate a scopes false t1) as [a1 p1] eqn:E.
  cbn [fst snd] in *. cbn [with_auth Forge.auth]. subst p1.
  rewrite (authenticate_hit a1 scopes false t2 _
             (sentinel_hit _ _ _ _ _ Hk Ho Ht2)).
  split; [|cbn; now rewrite Hposts].
  unfold with_auth. cbn. reflexivity.
Qed.

Lemma setAuthorization_shares_token_request_witness :
  let a := Authentication.new "id" "secret" None in
  let this :=
    {| auth := Some a; token := None; root := "modelderivative/v2";
       host := DefaultHost; region := US;
       axios := {| baseURL := DefaultHost +:+ "/modelderivative/v2/";
                   maxContentLength := None; maxBodyLength := None |} |} in
  let c1 := fst (setAuthorization this ["data:read"] 0) in
  Forge.auth this = Some a
  /\ Authentication.cached_hit a (Authentication.cache_key ["data:read"])
       false 0 = None
  /\ Authentication.clock_reading 1
  /\ setAuthorization c1 ["data:read"] 1
     = (c1, snd (setAuthorization this ["data:read"] 0)).
Proof.
  cbn zeta.
  assert (Ht : Authentication.clock_reading 1)
    by (unfold Authentication.clock_reading; lia).
  split; [reflexivity|]. split; [reflexivity|]. split; [exact Ht|].
  exact (proj1 (setAuthorization_shares_token_request
                  {| auth := Some (Authentication.new "id" "secret" None);
                     token := None; root := "modelderivative/v2";
                     host := DefaultHost; region := US;
                     axios := {| baseURL :=
                                   DefaultHost +:+ "/modelderivative/v2/";
                                 maxContentLength := None;
                                 maxBodyLength := None |} |}
                  _ ["data:read"] 0 1 eq_refl eq_refl Ht)).
Defined.

End ForgeMore.

(** ** Chunked download *)

Section ChunkedFacts.
Import Chunked.

Lemma decimal_nonneg (z : Z) :
  0 <= z ->
  exists d, d <> Decimal.Nil
            /\ decimal z = NilEmpty.string_of_uint d
            /\ Z.of_uint d = z.
Proof.
  intros Hz. destruct z as [|p|p]; [| |lia].
  - exists (Decimal.D0 Decimal.Nil). repeat split. discriminate.
  - exists (Pos.to_uint p). split; [apply DecimalPos.Unsigned.to_uint_nonnil|].
    split.
    + unfold decimal. cbn [Z.to_int NilZero.string_of_int].
      pose proof (DecimalPos.Unsigned.to_uint_nonnil p) as Hn.
      now destruct (Pos.to_uint p).
    + exact (DecimalZ.of_to (Z.pos p)).
Qed.

Lemma split_dash_cons (c : ascii) (s : string) :
  Ascii.eqb c "-"%char = false ->
  split_dash (String c s)
  = match split_dash s with
    | Some (a, b) => Some (String c a, b)
    | None => None
    end.
Proof. intros H. cbn [split_dash]. now rewrite H. Qed.

Lemma append_cons (c : ascii) (s1 s2 : string) :
  String c s1 +:+ s2 = String c (s1 +:+ s2).
Proof. reflexivity. Qed.

Lemma strip_prefix_append (p s : string) :
  strip_prefix p (p +:+ s) = Some s.
Proof.
  induction p as [|c p IH]; [reflexivity|].
  change (strip_prefix (String c p) (String c p +:+ s))
    with (if Ascii.eqb c c then strip_prefix p (p +:+ s) else None).
  now rewrite Ascii.eqb_refl.
Qed.

Lemma digits_then_dash (d : Decimal.uint) (rest : string) :
  split_dash (NilEmpty.string_of_uint d +:+ String "-"%char rest)
  = Some (NilEmpty.string_of_uint d, rest).
Proof.
  induction d as [|d IH|d IH|d IH|d IH|d IH|d IH|d IH|d IH|d IH|d IH];
    [reflexivity|..];
    cbn [NilEmpty.string_of_uint];
    rewrite append_cons, split_dash_cons by reflexivity;
    rewrite IH; reflexivity.
Qed.

Lemma digits_roundtrip (d : Decimal.uint) :
  d <> Decimal.Nil ->
  NilZero.uint_of_string (NilEmpty.string_of_uint d) = Some d.
Proof.
  intros Hd. destruct d; [done|..]; exact (NilEmpty.usu _).
Qed.

Lemma parse_range_header (s c : Z) :
  0 <= s -> 1 <= c ->
  parse_range (range_header s c) = Some (s, s + c - 1).
Proof.
  intros Hs Hc.
  destruct (decimal_nonneg s Hs) as (d1 & Hn1 & E1 & V1).
  destruct (decimal_nonneg (s + c - 1)) as (d2 & Hn2 & E2 & V2); [lia|].
  unfold parse_range, range_header. rewrite E1, E2, strip_prefix_append.
  cbn [mbind option_bind].
  change ("-" +:+ NilEmpty.string_of_uint d2)
    with (String "-"%char (NilEmpty.string_of_uint d2)).
  rewrite digits_then_dash. cbn [mbind option_bind fst snd].
  rewrite !digits_roundtrip by done. cbn [mbind option_bind].
  now rewrite V1, V2.
Qed.

Lemma serve_range_header (content : list byte) (s c : Z) :
  0 <= s < Z.of_nat (length content) -> 1 <= c ->
  serve_range content (range_header s c)
  = Some (take (Z.to_nat c) (drop (Z.to_nat s) content)).
Proof.
  intros Hs Hc. unfold serve_range.
  rewrite parse_range_header by lia.
  replace (s <=? s + c - 1) with true by (symmetry; apply Z.leb_le; lia).
  replace (s <? Z.of_nat (length content)) with true
    by (symmetry; apply Z.ltb_lt; lia).
  do 3 f_equal. lia.
Qed.

Lemma ceil_div_none (C : Z) : 0 < C -> ceil_div 0 C = 0.
Proof. intros HC. unfold ceil_div. apply Z.div_small. lia. Qed.

Lemma ceil_div_step (r C : Z) :
  0 < C -> C <= r -> ceil_div r C = 1 + ceil_div (r - C) C.
Proof.
  intros HC Hr. unfold ceil_div.
  replace (r + C - 1) with ((r - C + C - 1) + 1 * C) by ring.
  rewrite Z.div_add by lia. ring.
Qed.

Lemma ceil_div_last (r C : Z) : 0 < r <= C -> ceil_div r C = 1.
Proof.
  intros Hr. unfold ceil_div. symmetry.
  apply (Z.div_unique_pos _ _ 1 (r - 1)); lia.
Qed.

Lemma ceil_div_nonneg (r C : Z) : 0 < C -> 0 <= r -> 0 <= ceil_div r C.
Proof. intros HC Hr. unfold ceil_div. apply Z.div_pos; lia. Qed.

(** More rounds than needed change nothing; the chunks from position
    [s] on are the ranges of width [C], the last one shorter when the rest
    is. *)
Lemma read_loop_from (content : list byte) (C : Z) :
  0 < C ->
  let L := Z.of_nat (length content) in
  forall (rounds : nat) (s : Z),
    0 <= s <= L ->
    (Z.to_nat (ceil_div (L - s) C) <= rounds)%nat ->
    exists chunks,
      read_loop rounds (serve_range content) C L s = (chunks, Finished L)
      /\ Z.of_nat (length chunks) = ceil_div (L - s) C
      /\ (forall (i : nat) (chunk : Chunk),
            chunks !! i = Some chunk ->
            let start := s + C * Z.of_nat i in
            let chunkSize := Z.min C (L - start) in
            0 < chunkSize
            /\ range chunk = range_header start chunkSize
            /\ Z.of_nat (length (buff chunk)) = chunkSize)
      /\ concat (map buff chunks) = drop (Z.to_nat s) content.
Proof.
  intros HC L. induction rounds as [|rounds IH]; intros s Hs Hfuel.
  - assert (s = L) as ->.
    { destruct (Z.eq_dec s L) as [|Hne]; [done|].
      assert (0 < L - s) by lia.
      destruct (Z_le_gt_dec C (L - s)).
      - rewrite ceil_div_step in Hfuel by lia.
        pose proof (ceil_div_nonneg (L - s - C) C). lia.
      - rewrite ceil_div_last in Hfuel by lia. lia. }
    exists []. cbn [read_loop]. rewrite Z.ltb_irrefl.
    rewrite Z.sub_diag, ceil_div_none by done.
    split; [reflexivity|]. split; [reflexivity|].
    split; [intros i chunk Hi; discriminate Hi|].
    cbn. subst L. now rewrite Nat2Z.id, drop_all.
  - cbn [read_loop]. destruct (Z.ltb_spec s L) as [Hlt|Hge].
    + set (chunkSize := Z.min C (L - s)).
      assert (Hsize : 0 < chunkSize <= L - s) by (subst chunkSize; lia).
      rewrite serve_range_header by (fold L; lia).
      assert (Hnext : ceil_div (L - s) C
                      = 1 + ceil_div (L - (s + chunkSize)) C).
      { subst chunkSize. destruct (Z.min_spec C (L - s)) as [[? ->]|[? ->]].
        - replace (L - (s + C)) with (L - s - C) by ring.
          apply ceil_div_step; lia.
        - replace (L - (s + (L - s))) with 0 by ring.
          rewrite ceil_div_none by done. apply ceil_div_last. lia. }
      pose proof (ceil_div_nonneg (L - (s + chunkSize)) C) as Hpos.
      destruct (IH (s + chunkSize)) as (rest & Hrun & Hlen & Hidx & Hcat);
        [lia|lia|].
      rewrite Hrun. eexists. split; [reflexivity|].
      split; [|split].
      * cbn [length]. lia.
      * intros [|i] chunk Hi; cbn zeta.
        -- injection Hi as <-. cbn [range buff].
           replace (s + C * Z.of_nat 0) with s by lia.
           fold chunkSize. split; [lia|]. split; [reflexivity|].
           rewrite length_take, length_drop. fold L in Hs. lia.
        -- specialize (Hidx i chunk Hi). cbn zeta in Hidx.
           assert (Hfull : chunkSize = C).
           { destruct Hidx as (Hsz & _). lia. }
           rewrite Hfull in Hidx.
           now replace (s + C * Z.of_nat (S i))
             with (s + C + C * Z.of_nat i) by lia.
      * cbn [map concat buff]. rewrite Hcat.
        replace (Z.to_nat (s + chunkSize))
          with (Z.to_nat s + Z.to_nat chunkSize)%nat by lia.
        rewrite <- drop_drop. apply take_drop.
    + assert (s = L) as -> by lia.
      exists []. rewrite Z.sub_diag, ceil_div_none by done.
      split; [reflexivity|]. split; [reflexivity|].
      split; [intros i chunk Hi; discriminate Hi|].
      cbn. subst L. now rewrite Nat2Z.id, drop_all.
Qed.

Lemma ceil_div_quot (L C : Z) :
  0 < C -> 0 <= L ->
  ceil_div L C = L / C + (if L mod C =? 0 then 0 else 1).
Proof.
  intros HC HL. unfold ceil_div.
  pose proof (Z.div_mod L C ltac:(lia)) as Hdm.
  pose proof (Z.mod_pos_bound L C HC) as Hr.
  destruct (Z.eqb_spec (L mod C) 0) as [E|E]; symmetry.
  - apply (Z.div_unique_pos _ _ _ (C - 1)); lia.
  - apply (Z.div_unique_pos _ _ _ (L mod C - 1)); lia.
Qed.

Lemma ceil_div_bounds (L C : Z) :
  0 < C -> 0 <= L ->
  C * (ceil_div L C - 1) < L <= C * ceil_div L C.
Proof.
  intros HC HL. rewrite ceil_div_quot by done.
  pose proof (Z.div_mod L C ltac:(lia)) as Hdm.
  pose proof (Z.mod_pos_bound L C HC) as Hr.
  destruct (Z.eqb_spec (L mod C) 0); lia.
Qed.

(** C5. For a resource of [L] octets and a positive [maxChunkSize]
    [C], the generator, given rounds enough, leaves its loop with
    [streamedBytes = L] after yielding [ceil(L / C)] chunks.  Chunk [i]
    is requested at position [C * i] with
    [chunkSize = min(C, L - C * i)] by the header
    [bytes=<position>-<position + chunkSize - 1>] and holds [chunkSize]
    octets: [C] for every chunk but the last, and for the last [L mod C],
    or [C] when that is 0.  The chunks joined in order are the
    resource. *)
Theorem chunked_download_covers_content
  (content : list byte) (C : Z) (rounds : nat) :
  0 < C ->
  (Z.to_nat (ceil_div (Z.of_nat (length content)) C) <= rounds)%nat ->
  let L := Z.of_nat (length content) in
  exists chunks,
    getDerivativeChunked rounds content C = (chunks, Finished L)
    /\ Z.of_nat (length chunks) = ceil_div L C
    /\ C * (Z.of_nat (length chunks) - 1) < L <= C * Z.of_nat (length chunks)
    /\ (forall (i : nat) (chunk : Chunk),
          chunks !! i = Some chunk ->
          let streamedBytes := C * Z.of_nat i in
          let chunkSize := Z.min C (L - streamedBytes) in
          range chunk = range_header streamedBytes chunkSize
          /\ Z.of_nat (length (buff chunk)) = chunkSize
          /\ chunkSize
             = if (S i <? length chunks)%nat then C
               else if L mod C =? 0 then C else L mod C)
    /\ concat (map buff chunks) = content.
Proof.
  intros HC Hrounds L.
  destruct (read_loop_from content C HC rounds 0)
    as (chunks & Hrun & Hlen & Hidx & Hcat).
  { lia. }
  { now rewrite Z.sub_0_r. }
  fold L in Hrun, Hlen, Hidx. rewrite Z.sub_0_r in Hlen.
  exists chunks. split; [exact Hrun|]. split; [exact Hlen|].
  split; [rewrite Hlen; apply ceil_div_bounds; lia|].
  split; [|exact Hcat].
  intros i chunk Hi. cbn zeta.
  destruct (Hidx i chunk Hi) as (Hpos & Hrange & Hsize).
  cbn zeta in Hpos, Hrange, Hsize. rewrite Z.add_0_l in *.
  split; [exact Hrange|]. split; [exact Hsize|].
  destruct (Nat.ltb_spec (S i) (length chunks)) as [Hin|Hlast].
  - destruct (lookup_lt_is_Some_2 chunks (S i) Hin) as [next Hnext].
    destruct (Hidx (S i) next Hnext) as (Hpos' & _).
    cbn zeta in Hpos'. lia.
  - pose proof (lookup_lt_Some _ _ _ Hi) as Hlt.
    assert (Hn : Z.of_nat (length chunks) = Z.of_nat i + 1) by lia.
    rewrite Hn, ceil_div_quot in Hlen by lia.
    pose proof (Z.div_mod L C ltac:(lia)) as Hdm.
    pose proof (Z.mod_pos_bound L C HC) as Hr.
    destruct (Z.eqb_spec (L mod C) 0); nia.
Qed.

Lemma chunked_download_covers_content_witness :
  let content := ["a"; "b"; "c"; "d"; "e"]%byte in
  0 < 2
  /\ (Z.to_nat (ceil_div (Z.of_nat (length content)) 2) <= 3)%nat
  /\ exists chunks,
       getDerivativeChunked 3 content 2 = (chunks, Finished 5)
       /\ concat (map buff chunks) = content.
Proof.
  cbn zeta.
  assert (HC : 0 < 2) by lia.
  assert (Hrounds : (Z.to_nat (ceil_div (Z.of_nat
                       (length ["a"; "b"; "c"; "d"; "e"]%byte)) 2) <= 3)%nat)
    by (vm_compute; lia).
  split; [exact HC|]. split; [exact Hrounds|].
  destruct (chunked_download_covers_content
              ["a"; "b"; "c"; "d"; "e"]%byte 2 3 HC Hrounds)
    as (chunks & Hrun & _ & _ & _ & Hcat).
  exists chunks. split; [exact Hrun | exact Hcat].
Defined.

Example chunked_download_five_by_two :
  getDerivativeChunked 3 ["a"; "b"; "c"; "d"; "e"]%byte 2
  = ([ {| range := "bytes=0-1"; buff := ["a"; "b"]%byte |};
       {| range := "bytes=2-3"; buff := ["c"; "d"]%byte |};
       {| range := "bytes=4-4"; buff := ["e"]%byte |} ],
     Finished 5).
Proof. reflexivity. Qed.

(** With [maxChunkSize = 0] the position never advances: the loop is
    still running after any number of rounds. *)
Example chunked_download_zero_chunk_size :
  snd (getDerivativeChunked 50 ["a"; "b"; "c"]%byte 0) = Unfinished.
Proof. reflexivity. Qed.

End ChunkedFacts.

(** ** Manifest traversal *)

Section ManifestFacts.
Import Manifest.

(** Induction over a manifest node that reaches through the list of
    children. *)
Lemma DerivativeChild_nested_ind (P : DerivativeChild -> Prop) :
  (forall g t r, P (Node g t r None)) ->
  (forall g t r cs, Forall P cs -> P (Node g t r (Some cs))) ->
  forall n, P n.
Proof.
  intros Hleaf Hnode.
  fix self 1. intros [g t r [cs|]]; [|apply Hleaf].
  apply Hnode. induction cs as [|c cs IH]; constructor; [apply self | exact IH].
Qed.

Lemma for_of_cons {St} (body : DerivativeChild -> St -> St) c cs (st : St) :
  for_of body (c :: cs) st = for_of body cs (body c st).
Proof. reflexivity. Qed.

(** A loop whose body appends [out c] for each element appends the
    concatenation of the outputs. *)
Lemma for_of_appending {A} (body : DerivativeChild -> list A -> list A)
  (out : DerivativeChild -> list A) (cs : list DerivativeChild) :
  Forall (fun c => forall acc, body c acc = acc ++ out c) cs ->
  forall acc, for_of body cs acc = acc ++ flat_map out cs.
Proof.
  induction 1 as [|c cs Hc _ IH]; intros acc.
  - cbn. now rewrite app_nil_r.
  - rewrite for_of_cons, Hc, IH. cbn [flat_map]. now rewrite <- app_assoc.
Qed.

Lemma flat_map_compose {A B C} (g : A -> list B) (f : B -> list C)
  (l : list A) :
  flat_map (fun x => flat_map f (g x)) l = flat_map f (flat_map g l).
Proof.
  induction l as [|x l IH]; [reflexivity|].
  cbn [flat_map]. now rewrite List.flat_map_app, IH.
Qed.

Section Emitting.
Context {A : Type}.
Variable callback : DerivativeChild -> list A -> bool * list A.
Variable p : DerivativeChild -> bool.
Variable f : DerivativeChild -> list A.
Hypothesis callback_emits : forall n acc, callback n acc = (p n, acc ++ f n).

Lemma process_unfold (n : DerivativeChild) (acc : list A) :
  process callback n acc
  = if p n then for_of (process callback) (kids n) (acc ++ f n)
    else acc ++ f n.
Proof.
  destruct n as [g t r [cs|]]; cbn [process]; rewrite callback_emits;
    cbn [children kids default]; destruct (p _); reflexivity.
Qed.

Lemma pruned_unfold (n : DerivativeChild) :
  pruned p n = n :: (if p n then flat_map (pruned p) (kids n) else []).
Proof. destruct n as [g t r [cs|]]; reflexivity. Qed.

Lemma process_emits (n : DerivativeChild) :
  forall acc, process callback n acc = acc ++ flat_map f (pruned p n).
Proof.
  induction n as [g t r | g t r cs IH] using DerivativeChild_nested_ind;
    intros acc; rewrite process_unfold, pruned_unfold; cbn [flat_map kids children default].
  - destruct (p _); cbn; now rewrite ?app_nil_r.
  - destruct (p _); [|now rewrite app_nil_r].
    rewrite (for_of_appending _ (fun c => flat_map f (pruned p c))) by exact IH.
    rewrite <- app_assoc, flat_map_compose. reflexivity.
Qed.

Lemma traverse_emits (m : IDerivativeManifest) :
  traverse callback m []
  = flat_map f (flat_map (pruned p) (flat_map kids (derivatives m))).
Proof.
  unfold traverse.
  rewrite (for_of_appending _
             (fun d => flat_map f (flat_map (pruned p) (kids d)))).
  - cbn [app].
    rewrite (flat_map_compose (fun d => flat_map (pruned p) (kids d)) f).
    now rewrite (flat_map_compose kids (pruned p)).
  - apply Forall_forall. intros d _ acc.
    destruct d as [g t r [cs|]]; cbn [children kids default flat_map];
      [|now rewrite app_nil_r].
    rewrite (for_of_appending _ (fun c => flat_map f (pruned p c))).
    + now rewrite flat_map_compose.
    + apply Forall_forall. intros c _ acc'. apply process_emits.
Qed.

End Emitting.

Lemma flat_map_singleton {A} (l : list A) : flat_map (fun x => [x]) l = l.
Proof. induction l as [|x l IH]; [reflexivity|]. cbn. now rewrite IH. Qed.

Lemma flat_map_guard {A} (keep : A -> bool) (l : list A) :
  flat_map (fun x => if keep x then [x] else []) l = List.filter keep l.
Proof.
  induction l as [|x l IH]; [reflexivity|].
  cbn. rewrite IH. now destruct (keep x).
Qed.

Lemma pruned_always (n : DerivativeChild) :
  pruned (fun _ => true) n = preorder n.
Proof.
  induction n as [g t r | g t r cs IH] using DerivativeChild_nested_ind;
    [reflexivity|].
  cbn [pruned preorder children]. f_equal.
  induction IH as [|c cs Hc _ IHcs]; [reflexivity|].
  cbn [flat_map]. now rewrite Hc, IHcs.
Qed.

Lemma visits_pruned p n : visits p n = pruned p n.
Proof.
  unfold visits.
  rewrite (process_emits (recording p) p (fun n => [n])) by reflexivity.
  apply flat_map_singleton.
Qed.

Lemma calls_pruned p m :
  calls p m = flat_map (pruned p) (flat_map kids (derivatives m)).
Proof.
  unfold calls.
  rewrite (traverse_emits (recording p) p (fun n => [n])) by reflexivity.
  apply flat_map_singleton.
Qed.

Lemma flat_map_pointwise {A B} (f g : A -> list B) (l : list A) :
  (forall x, f x = g x) -> flat_map f l = flat_map g l.
Proof. intros E. induction l as [|x l IH]; [reflexivity|]. cbn. now rewrite E, IH. Qed.

Lemma search_filter (m : IDerivativeManifest) (q : Query) :
  search m q
  = List.filter (query_matches q)
      (flat_map preorder (flat_map kids (derivatives m))).
Proof.
  unfold search.
  rewrite (traverse_emits _ (fun _ => true)
             (fun n => if query_matches q n then [n] else [])).
  - rewrite flat_map_guard. f_equal. apply flat_map_pointwise, pruned_always.
  - intros n acc. destruct (query_matches q n); [reflexivity|].
    now rewrite app_nil_r.
Qed.

Lemma preorder_unfold (n : DerivativeChild) :
  preorder n = n :: flat_map preorder (kids n).
Proof. destruct n as [g t r [cs|]]; reflexivity. Qed.

Lemma nodes_below_top_level (ds : list DerivativeChild) :
  (length (flat_map preorder (flat_map kids ds)) + length ds
   = list_sum (map size ds))%nat.
Proof.
  induction ds as [|d ds IH]; [reflexivity|].
  change (list_sum (map size (d :: ds)))
    with (size d + list_sum (map size ds))%nat.
  cbn [flat_map length]. unfold size at 1.
  rewrite List.flat_map_app, length_app, preorder_unfold.
  cbn [length]. lia.
Qed.

Lemma no_kids_below (ds : list DerivativeChild) :
  Forall (fun d => kids d = []) ds -> flat_map kids ds = [].
Proof.
  induction 1 as [|d ds Hd _ IH]; [reflexivity|].
  cbn [flat_map]. now rewrite Hd, IH.
Qed.

(** C8. With only [role: "3d"] in the query, [search] returns exactly
    the traversed nodes (the nodes below the top-level entries) whose
    [role] is ["3d"], whatever their [guid] and [type], in depth-first
    pre-order; and the nodes [process] hands to a callback answering [p]
    are the node itself followed, when [p] answers [true] there, by the
    visits of its children in order, and by nothing when [p] answers
    [false]. *)
Theorem search_role_3d_preorder (m : IDerivativeManifest) :
  search m {| q_guid := None; q_type := None; q_role := Some "3d" |}
  = List.filter (role_is "3d")
      (flat_map preorder (flat_map kids (derivatives m)))
  /\ forall (p : DerivativeChild -> bool) (n : DerivativeChild),
       visits p n
       = n :: (if p n then flat_map (visits p) (kids n) else []).
Proof.
  split.
  - rewrite search_filter. reflexivity.
  - intros p n. rewrite visits_pruned, (pruned_unfold p).
    destruct (p n); [|reflexivity].
    f_equal. apply flat_map_pointwise. intros c. now rewrite visits_pruned.
Qed.

(** C10. [traverse] calls the callback on the children of the top-level
    entries of [manifest.derivatives] and on what [process] reaches
    below them, and on nothing else: when the callback always descends,
    the number of calls is the number of nodes of the manifest less its
    top-level entries.  Hence [search] selects among the nodes below the
    top-level entries only, and a manifest whose entries all lack
    children gives no call and an empty search result. *)
Theorem traverse_skips_top_level
  (m : IDerivativeManifest) (p : DerivativeChild -> bool) (q : Query) :
  calls p m = flat_map (visits p) (flat_map kids (derivatives m))
  /\ (length (calls (fun _ => true) m) + length (derivatives m)
      = list_sum (map size (derivatives m)))%nat
  /\ search m q
     = List.filter (query_matches q)
         (flat_map preorder (flat_map kids (derivatives m)))
  /\ (Forall (fun d => kids d = []) (derivatives m) ->
      calls p m = [] /\ search m q = []).
Proof.
  assert (Hcalls : calls p m
                   = flat_map (visits p) (flat_map kids (derivatives m))).
  { rewrite calls_pruned. apply flat_map_pointwise.
    intros c. now rewrite visits_pruned. }
  split; [exact Hcalls|]. split.
  - rewrite calls_pruned.
    rewrite (flat_map_pointwise _ preorder) by apply pruned_always.
    apply nodes_below_top_level.
  - split; [apply search_filter|].
    intros Hnone.
    apply no_kids_below in Hnone.
    now rewrite Hcalls, search_filter, Hnone.
Qed.

(** A top-level entry that matches the query is not returned; its
    matching child is. *)
Example search_ignores_matching_top_level :
  let leaf := Node (Some "g2") (Some "geometry") (Some "3d") None in
  let top := Node (Some "g1") (Some "geometry") (Some "3d") (Some [leaf]) in
  let lone := Node (Some "g3") (Some "geometry") (Some "3d") None in
  search {| derivatives := [top; lone] |}
         {| q_guid := None; q_type := None; q_role := Some "3d" |}
  = [leaf].
Proof. reflexivity. Qed.

(** The manifest of the example above has entries without children
    only once [top] is left out. *)
Lemma traverse_skips_top_level_witness :
  let lone := Node (Some "g3") (Some "geometry") (Some "3d") None in
  let m := {| derivatives := [lone; lone] |} in
  let q := {| q_guid := None; q_type := None; q_role := Some "3d" |} in
  Forall (fun d => kids d = []) (derivatives m)
  /\ calls (fun _ => true) m = [] /\ search m q = [].
Proof.
  assert (H : Forall (fun d => kids d = [])
                [Node (Some "g3") (Some "geometry") (Some "3d") None;
                 Node (Some "g3") (Some "geometry") (Some "3d") None]).
  { repeat constructor. }
  split; [exact H|].
  exact (proj2 (proj2 (proj2 (traverse_skips_top_level
     {| derivatives := [Node (Some "g3") (Some "geometry") (Some "3d") None;
                        Node (Some "g3") (Some "geometry") (Some "3d") None] |}
     (fun _ => true)
     {| q_guid := None; q_type := None; q_role := Some "3d" |}))) H).
Defined.

End ManifestFacts.

(** C7. [urnify] is a function of its argument alone (it reads no
    state, so equal identifiers give equal URNs); its result never
    contains the character [=]; and restoring the stripped padding and
    decoding the result as base64 gives back the octets of the
    identifier. *)
Theorem urnify_pure_unpadded_roundtrip (id : string) :
  (forall id' : string, id' = id -> urnify id' = urnify id)
  /\ occurs "="%char (urnify id) = false
  /\ Base64.decode (Base64.repad (urnify id)) = Some (Buffer_from id).
Proof.
  split; [now intros id' ->|]. split.
  - apply occurs_replace_eq.
  - unfold urnify. now rewrite repad_replace_encode, decode_encode.
Qed.

Example urnify_doc_example :
  urnify "urn:adsk.objects:os.object:my-bucket/my-file.dwg"
  = "dXJuOmFkc2sub2JqZWN0czpvcy5vYmplY3Q6bXktYnVja2V0L215LWZpbGUuZHdn".
Proof. reflexivity. Qed.

Example urnify_padded_inputs :
  urnify "a" = "YQ" /\ urnify "ab" = "YWI" /\ urnify "abc" = "YWJj"
  /\ Base64.decode (Base64.repad (urnify "ab")) = Some (Buffer_from "ab").
Proof. repeat split; reflexivity. Qed.

(** ** Chunked download against any server *)

Section ChunkedMore.
Import Chunked.

Lemma read_loop_step rounds getBuffer C L s :
  s < L ->
  read_loop (S rounds) getBuffer C L s
  = match getBuffer (range_header s (Z.min C (L - s))) with
    | Some b =>
      ({| range := range_header s (Z.min C (L - s)); buff := b |}
       :: fst (read_loop rounds getBuffer C L (s + Z.min C (L - s))),
       snd (read_loop rounds getBuffer C L (s + Z.min C (L - s))))
    | None => ([], Failed)
    end.
Proof.
  intros Hs. cbn [read_loop].
  replace (s <? L) with true by (symmetry; now apply Z.ltb_lt).
  destruct (getBuffer _); [|reflexivity].
  now destruct (read_loop rounds getBuffer C L _).
Qed.

Lemma read_loop_past_end rounds getBuffer C L s :
  L <= s -> read_loop rounds getBuffer C L s = ([], Finished s).
Proof.
  intros Hs. destruct rounds; cbn [read_loop];
    now replace (s <? L) with false by (symmetry; now apply Z.ltb_ge).
Qed.

(** The ranges asked for depend on the content length and the chunk
    size alone.  Whatever the server sends back, be it short, long or
    empty, chunk [i] is the unchecked answer to the request for
    [min(C, L - C * i)] octets at position [C * i]; the first request
    that fails ends the sequence, what was yielded before it standing;
    and the loop is left only with [streamedBytes] at the content
    length. *)
Theorem chunk_requests_ignore_answers
  (getBuffer : string -> option (list byte)) (C L : Z) (rounds : nat) :
  0 < C -> 0 <= L ->
  let chunks := fst (read_loop rounds getBuffer C L 0) in
  let fin := snd (read_loop rounds getBuffer C L 0) in
  (forall (i : nat) (chunk : Chunk),
      chunks !! i = Some chunk ->
      let start := C * Z.of_nat i in
      start < L
      /\ range chunk = range_header start (Z.min C (L - start))
      /\ getBuffer (range chunk) = Some (buff chunk))
  /\ (fin = Failed ->
      let start := C * Z.of_nat (length chunks) in
      start < L
      /\ getBuffer (range_header start (Z.min C (L - start))) = None)
  /\ (forall x, fin = Finished x -> x = L).
Proof.
  intros HC HL. cbn zeta.
  assert (Hgen : forall rounds s,
            0 <= s <= L ->
            (forall (i : nat) (chunk : Chunk),
                fst (read_loop rounds getBuffer C L s) !! i = Some chunk ->
                s + C * Z.of_nat i < L
                /\ range chunk
                   = range_header (s + C * Z.of_nat i)
                       (Z.min C (L - (s + C * Z.of_nat i)))
                /\ getBuffer (range chunk) = Some (buff chunk))
            /\ (snd (read_loop rounds getBuffer C L s) = Failed ->
                let n := length (fst (read_loop rounds getBuffer C L s)) in
                s + C * Z.of_nat n < L
                /\ getBuffer (range_header (s + C * Z.of_nat n)
                                (Z.min C (L - (s + C * Z.of_nat n)))) = None)
            /\ (forall x,
                  snd (read_loop rounds getBuffer C L s) = Finished x ->
                  x = L)).
  { clear rounds. induction rounds as [|rounds IH]; intros s Hs.
    - destruct (Z.ltb_spec s L) as [Hlt|Hge].
      + cbn [read_loop].
        replace (s <? L) with true by (symmetry; now apply Z.ltb_lt).
        cbn [fst snd]. split; [intros i chunk Hi; discriminate Hi|].
        split; intros; discriminate.
      + rewrite read_loop_past_end by done. cbn [fst snd].
        split; [intros i chunk Hi; discriminate Hi|].
        split; [discriminate|]. intros x Hx. injection Hx as <-. lia.
    - destruct (Z.ltb_spec s L) as [Hlt|Hge].
      + rewrite read_loop_step by done.
        destruct (getBuffer (range_header s (Z.min C (L - s)))) as [b|] eqn:Hb.
        * cbn [fst snd].
          destruct (IH (s + Z.min C (L - s))) as (Hidx & Hfail & Hfin);
            [lia|].
          split; [|split].
          -- intros [|i] chunk Hi.
             ++ injection Hi as <-. cbn [range buff].
                replace (s + C * Z.of_nat 0) with s by lia. now split.
             ++ destruct (Hidx i chunk Hi) as (Hlt' & Hr & Hg).
                assert (Z.min C (L - s) = C) as Hfull by lia.
                rewrite Hfull in *.
                replace (s + C * Z.of_nat (S i))
                  with (s + C + C * Z.of_nat i) by lia.
                now split.
          -- intros Hf. destruct (Hfail Hf) as (Hlt' & Hg).
             cbn zeta in *. cbn [length].
             assert (Z.min C (L - s) = C) as Hfull by lia.
             rewrite Hfull in *.
             replace (s + C * Z.of_nat (S _)) with
               (s + C + C * Z.of_nat
                  (length (fst (read_loop rounds getBuffer C L (s + C)))))
               by lia.
             now split.
          -- exact Hfin.
        * cbn [fst snd length]. split; [intros i chunk Hi; discriminate Hi|].
          split; [|discriminate]. intros _. cbn zeta.
          replace (s + C * Z.of_nat 0) with s by lia. now split.
      + rewrite read_loop_past_end by done. cbn [fst snd].
        split; [intros i chunk Hi; discriminate Hi|].
        split; [discriminate|]. intros x Hx. injection Hx as <-. lia. }
  destruct (Hgen rounds 0) as (Hidx & Hfail & Hfin); [lia|].
  split; [|split; [|exact Hfin]].
  - intros i chunk Hi. specialize (Hidx i chunk Hi).
    now rewrite !Z.add_0_l in Hidx.
  - intros Hf. specialize (Hfail Hf). cbn zeta in Hfail.
    now rewrite !Z.add_0_l in Hfail.
Qed.

Lemma chunk_requests_ignore_answers_witness :
  let getBuffer := fun _ : string => Some (@nil byte) in
  0 < 2 /\ 0 <= 5
  /\ map range (fst (read_loop 3 getBuffer 2 5 0))
     = ["bytes=0-1"; "bytes=2-3"; "bytes=4-4"]
  /\ forall x, snd (read_loop 3 getBuffer 2 5 0) = Finished x -> x = 5.
Proof.
  cbn zeta.
  assert (HC : 0 < 2) by lia. assert (HL : 0 <= 5) by lia.
  split; [exact HC|]. split; [exact HL|]. split; [reflexivity|].
  exact (proj2 (proj2 (chunk_requests_ignore_answers
                         (fun _ => Some []) 2 5 3 HC HL))).
Defined.

(** With a [maxChunkSize] of 0 or less and content to fetch, the
    position never gets nearer the end: the generator never finishes; it
    goes on until a request fails. *)
Theorem nonpositive_chunk_size_never_finishes
  (getBuffer : string -> option (list byte)) (C L s : Z) (rounds : nat) :
  C <= 0 -> s < L ->
  forall x, snd (read_loop rounds getBuffer C L s) <> Finished x.
Proof.
  intros HC. revert s. induction rounds as [|rounds IH]; intros s Hs x.
  - cbn [read_loop].
    replace (s <? L) with true by (symmetry; now apply Z.ltb_lt).
    discriminate.
  - rewrite read_loop_step by done.
    destruct (getBuffer _); [|discriminate].
    cbn [snd]. apply IH. lia.
Qed.

Lemma nonpositive_chunk_size_never_finishes_witness :
  0 <= 0 /\ 0 < 3
  /\ snd (read_loop 40 (serve_range ["a"; "b"; "c"]%byte) 0 3 0)
     <> Finished 3.
Proof.
  assert (HC : 0 <= 0) by lia. assert (Hs : 0 < 3) by lia.
  split; [exact HC|]. split; [exact Hs|].
  exact (nonpositive_chunk_size_never_finishes
           (serve_range ["a"; "b"; "c"]%byte) 0 3 0 40 HC Hs 3).
Defined.

End ChunkedMore.

(** ** Endpoints and the job body *)

Section ModelDerivativeFacts.
Import ModelDerivative.

Lemma append_assoc' (a b c : string) : (a +:+ b) +:+ c = a +:+ (b +:+ c).
Proof.
  induction a as [|x a IH]; [reflexivity|].
  change (String x a +:+ b) with (String x (a +:+ b)).
  change (String x (a +:+ b) +:+ c) with (String x ((a +:+ b) +:+ c)).
  change (String x a +:+ (b +:+ c)) with (String x (a +:+ (b +:+ c))).
  now rewrite IH.
Qed.

Lemma append_empty_r (a : string) : a +:+ "" = a.
Proof.
  induction a as [|x a IH]; [reflexivity|].
  change (String x a +:+ "") with (String x (a +:+ "")). now rewrite IH.
Qed.

(** Every method whose URL depends on the region asks, for EMEA, for
    the URL it asks for in the US with [regions/eu/] put before it, and
    differs in nothing else; [submitJob] posts to the same URL in both
    and names the region in the body. *)
Theorem emea_endpoints_are_prefixed
  (urn urn2 guid : string) (force : bool) (size : ThumbnailSize)
  (outputs : list string) (path wid wattr : option string) :
  let eu (us emea : HelperCall) :=
    endpoint emea = "regions/eu/" +:+ endpoint us
    /\ helper emea = helper us /\ headers emea = headers us
    /\ scopes emea = scopes us /\ repeatOn202 emea = repeatOn202 us in
  eu (getManifest Forge.US urn) (getManifest Forge.EMEA urn)
  /\ eu (deleteManifest Forge.US urn) (deleteManifest Forge.EMEA urn)
  /\ eu (getDerivative Forge.US urn urn2) (getDerivative Forge.EMEA urn urn2)
  /\ eu (getDerivativeStream Forge.US urn urn2)
        (getDerivativeStream Forge.EMEA urn urn2)
  /\ eu (getMetadata Forge.US urn) (getMetadata Forge.EMEA urn)
  /\ eu (getMetadataStream Forge.US urn) (getMetadataStream Forge.EMEA urn)
  /\ eu (getViewableTree Forge.US urn guid force)
        (getViewableTree Forge.EMEA urn guid force)
  /\ eu (getViewableTreeStream Forge.US urn guid force)
        (getViewableTreeStream Forge.EMEA urn guid force)
  /\ eu (getViewableProperties Forge.US urn guid force)
        (getViewableProperties Forge.EMEA urn guid force)
  /\ eu (getViewablePropertiesStream Forge.US urn guid force)
        (getViewablePropertiesStream Forge.EMEA urn guid force)
  /\ eu (getThumbnail Forge.US urn size) (getThumbnail Forge.EMEA urn size)
  /\ eu (getThumbnailStream Forge.US urn size)
        (getThumbnailStream Forge.EMEA urn size)
  /\ snd (submitJob Forge.EMEA urn outputs path force wid wattr)
     = snd (submitJob Forge.US urn outputs path force wid wattr)
  /\ output_destination_region
       (fst (submitJob Forge.EMEA urn outputs path force wid wattr))
     = Forge.EMEA.
Proof.
  cbn zeta.
  repeat match goal with
         | |- _ /\ _ => split
         end;
    try reflexivity;
    destruct force; reflexivity.
Qed.

(** The stream variants of the tree and properties queries, which build
    their URL by appending to it, ask for the same URL as the plain
    variants, which build it in one template. *)
Theorem stream_variants_ask_same_url
  (region : Forge.Region) (urn guid : string) (force : bool) :
  endpoint (getViewableTreeStream region urn guid force)
  = endpoint (getViewableTree region urn guid force)
  /\ endpoint (getViewablePropertiesStream region urn guid force)
     = endpoint (getViewableProperties region urn guid force).
Proof.
  split; destruct region, force;
    cbn [endpoint getViewableTreeStream getViewableTree
         getViewablePropertiesStream getViewableProperties forceget];
    rewrite ?append_assoc', ?append_empty_r; reflexivity.
Qed.

(** What [submitJob] leaves out of the body.  The archive pair
    [compressedUrn] and [rootFilename] is set together or not at all, and
    not for an empty [pathInArchive]; [misc] is there exactly for a
    [workflowId] that is not empty, so [workflowAttr] given without one
    is dropped; the URN goes in as given. *)
Theorem submitJob_optional_parts
  (region : Forge.Region) (urn : string) (outputs : list string)
  (pathInArchive workflowId workflowAttr : option string) (force : bool) :
  let params :=
    fst (submitJob region urn outputs pathInArchive force workflowId
           workflowAttr) in
  input_urn (input params) = urn
  /\ (if truthy pathInArchive
      then compressedUrn (input params) = Some true
           /\ rootFilename (input params) = pathInArchive
      else compressedUrn (input params) = None
           /\ rootFilename (input params) = None)
  /\ (if truthy workflowId
      then exists m, misc params = Some m
                     /\ Some (workflow m) = workflowId
                     /\ workflowAttribute m
                        = (if truthy workflowAttr then workflowAttr else None)
      else misc params = None).
Proof.
  cbn zeta. unfold submitJob. cbn [fst input misc].
  split; [now destruct (truthy pathInArchive)|].
  split; [now destruct (truthy pathInArchive)|].
  destruct workflowId as [w|]; cbn [truthy]; [|reflexivity].
  destruct (negb (String.eqb w "")); [|reflexivity].
  eexists. repeat split.
Qed.

End ModelDerivativeFacts.

(** ** Searching a manifest, further *)

Section ManifestMore.
Import Manifest Vocabulary.

Lemma filter_within {A} (f g : A -> bool) (l : list A) :
  (forall x, f x = true -> g x = true) ->
  List.filter f (List.filter g l) = List.filter f l.
Proof.
  intros Hfg. induction l as [|x l IH]; [reflexivity|].
  cbn [List.filter]. destruct (g x) eqn:Hg.
  - cbn [List.filter]. now rewrite IH.
  - rewrite IH. destruct (f x) eqn:Hf; [|reflexivity].
    apply Hfg in Hf. congruence.
Qed.

Lemma filter_all {A} (l : list A) : List.filter (fun _ => true) l = l.
Proof. induction l as [|x l IH]; [reflexivity|]. cbn. now rewrite IH. Qed.

Lemma narrows_matches (q q' : Query) (n : DerivativeChild) :
  narrows q q' -> query_matches q' n = true -> query_matches q n = true.
Proof.
  intros (Hg & Ht & Hr). unfold query_matches.
  rewrite !andb_true_iff. intros [[Mg Mt] Mr].
  repeat split.
  - destruct Hg as [->| ->]; [reflexivity|exact Mg].
  - destruct Ht as [->| ->]; [reflexivity|exact Mt].
  - destruct Hr as [->| ->]; [reflexivity|exact Mr].
Qed.

(** A query that asks for more can be answered from the result of one
    that asks for less: searching with [q'] gives the nodes of the search
    with [q] that match [q'], in the same order. *)
Theorem search_narrowing
  (m : IDerivativeManifest) (q q' : Query) :
  narrows q q' ->
  search m q' = List.filter (query_matches q') (search m q).
Proof.
  intros Hn. rewrite !search_filter.
  symmetry. apply filter_within. intros n. now apply narrows_matches.
Qed.

Lemma search_narrowing_witness :
  let leaf g r := Node (Some g) (Some "geometry") (Some r) None in
  let m := {| derivatives :=
                [Node None None None
                   (Some [leaf "a" "3d"; leaf "b" "2d"; leaf "c" "3d"])] |} in
  let q := {| q_guid := None; q_type := None; q_role := Some "3d" |} in
  let q' := {| q_guid := Some "c"; q_type := None; q_role := Some "3d" |} in
  narrows q q'
  /\ search m q = [leaf "a" "3d"; leaf "c" "3d"]
  /\ List.filter (query_matches q') (search m q) = [leaf "c" "3d"]
  /\ search m q' = List.filter (query_matches q') (search m q).
Proof.
  cbn zeta.
  assert (Hn : narrows
                 {| q_guid := None; q_type := None; q_role := Some "3d" |}
                 {| q_guid := Some "c"; q_type := None;
                    q_role := Some "3d" |}).
  { repeat split; cbn; auto. }
  split; [exact Hn|]. split; [reflexivity|]. split; [reflexivity|].
  exact (search_narrowing _ _ _ Hn).
Defined.

(** With nothing asked for, [search] returns every node below the
    top-level entries, parents before children, in document order; and a
    callback that never descends is called on the children of the
    top-level entries and on nothing else. *)
Theorem search_all_and_shallow_traverse (m : IDerivativeManifest) :
  search m {| q_guid := None; q_type := None; q_role := None |}
  = reachable m
  /\ calls (fun _ => false) m = flat_map kids (derivatives m).
Proof.
  split.
  - rewrite search_filter. unfold reachable.
    rewrite <- (filter_all (flat_map preorder _)) at 2.
    reflexivity.
  - rewrite calls_pruned.
    generalize (flat_map kids (derivatives m)) as l.
    induction l as [|n l IH]; [reflexivity|].
    cbn [flat_map]. rewrite IH, (pruned_unfold (fun _ => false)).
    reflexivity.
Qed.

End ManifestMore.

(** ** [urnify], further *)

Section UrnMore.
Import Base64.

(** The URN determines the octets of the identifier: two identifiers
    get the same URN only when [Buffer.from] gives the same octets for
    both. *)
Theorem urnify_determines_octets (id1 id2 : string) :
  urnify id1 = urnify id2 -> Buffer_from id1 = Buffer_from id2.
Proof.
  intros H.
  assert (E : decode (repad (urnify id1)) = decode (repad (urnify id2)))
    by now rewrite H.
  unfold urnify in E.
  rewrite !repad_replace_encode, !decode_encode in E.
  now injection E.
Qed.

Lemma urnify_determines_octets_witness :
  urnify "ab" = urnify "ab"
  /\ Buffer_from "ab" = Buffer_from "ab"
  /\ urnify "ab" <> urnify "ac".
Proof.
  split; [reflexivity|].
  split; [exact (urnify_determines_octets "ab" "ab" eq_refl)|].
  intros H. apply urnify_determines_octets in H. discriminate H.
Defined.

Ltac sextet_bound :=
  repeat match goal with
         | |- context [Byte.to_N ?b] =>
           lazymatch goal with
           | _ : (Byte.to_N b < 256)%N |- _ => fail
           | _ => pose proof (byte_bound b)
           end
         end;
  lia.

Lemma unpadded_length (bs : list byte) :
  String.length (replace_eq (encode bs)) = ((4 * length bs + 2) / 3)%nat.
Proof.
  induction bs as [| a | a b | a b c rest IH] using octets_ind3.
  - reflexivity.
  - cbn [encode replace_eq]. change "="%char with pad.
    rewrite !char_of_not_pad by sextet_bound. reflexivity.
  - cbn [encode replace_eq]. change "="%char with pad.
    rewrite !char_of_not_pad by sextet_bound. reflexivity.
  - rewrite encode_group. cbn [replace_eq]. change "="%char with pad.
    rewrite !char_of_not_pad by sextet_bound.
    cbn [String.length length]. rewrite IH.
    replace (4 * S (S (S (length rest))) + 2)%nat
      with ((4 * length rest + 2) + 4 * 3)%nat by lia.
    rewrite Nat.div_add by lia. lia.
Qed.

Lemma unpadded_alphabet (bs : list byte) :
  Forall (fun c => In c alphabet)
    (list_ascii_of_string (replace_eq (encode bs))).
Proof.
  assert (Hin : forall i, (i < 64)%N -> In (char_of i) alphabet).
  { intros i Hi. unfold char_of. apply nth_In.
    change (length alphabet) with 64%nat. lia. }
  induction bs as [| a | a b | a b c rest IH] using octets_ind3.
  - constructor.
  - cbn [encode replace_eq]. change "="%char with pad.
    rewrite !char_of_not_pad by sextet_bound.
    cbn [list_ascii_of_string replace_eq].
    repeat (apply List.Forall_cons; [apply Hin; sextet_bound|]). constructor.
  - cbn [encode replace_eq]. change "="%char with pad.
    rewrite !char_of_not_pad by sextet_bound.
    cbn [list_ascii_of_string replace_eq].
    repeat (apply List.Forall_cons; [apply Hin; sextet_bound|]). constructor.
  - rewrite encode_group. cbn [replace_eq]. change "="%char with pad.
    rewrite !char_of_not_pad by sextet_bound. cbn [list_ascii_of_string].
    repeat (apply List.Forall_cons; [apply Hin; sextet_bound|]). exact IH.
Qed.

(** A URN of an identifier of [n] octets has [ceil(4 n / 3)] characters,
    all of the standard base64 alphabet.  That alphabet has [/] and [+]
    in it, and some identifiers do get a URN with a [/]. *)
Theorem urnify_length_and_alphabet (id : string) :
  String.length (urnify id)
  = ((4 * length (Buffer_from id) + 2) / 3)%nat
  /\ Forall (fun c => In c alphabet) (list_ascii_of_string (urnify id))
  /\ In "/"%char alphabet /\ In "+"%char alphabet
  /\ exists id', occurs "/"%char (urnify id') = true.
Proof.
  split; [apply unpadded_length|]. split; [apply unpadded_alphabet|].
  split; [unfold alphabet; cbn; tauto|].
  split; [unfold alphabet; cbn; tauto|].
  exists "???". reflexivity.
Qed.

End UrnMore.
